(** * chart2melodics: the event pipeline of [chart2melodics.py]

    A shallow embedding of the conversion script: the tick-indexed event
    table built by [read_midi_events], the rewrite passes applied by
    [main], and [write_midi], which synthesises note-offs and re-encodes
    delta times.

    Modelling conventions.
    - The MIDI codec (mido) is an external library.  A parsed container is
      the input of the model; a message is a value of [Message];
      [Message.copy(field=v)] is a functional update of that field.  mido
      raises ValueError in [copy] for a note or velocity outside 0..127;
      the update is the model of [copy] for a value inside that range, as
      every value configured in [main] is, and a statement that promises
      the event a pass produces from a parameter carries the range of that
      parameter as a hypothesis.
    - [events_by_tick] is a Python dict from tick to a list of event dicts.
      No pass depends on the iteration order of the dict (each tick is
      processed on its own, or the keys are sorted first), so the table is
      a [gmap Z (list Event)].
    - Event dicts are mutated in place.  Every event dict is stored in
      exactly one slot of the table, so a reference to an event is its
      location: the tick key and the index in that tick's list. *)

From Stdlib Require Import ZArith List Lia Permutation Sorted.
From stdpp Require Import base option list gmap fin_maps strings sorting.

Open Scope Z_scope.

(** ** Configuration constants *)

Definition EXPECTED_TPB : Z := 96.
Definition DEFAULT_DURATION : Z := 8.

(** ** Messages *)

Inductive MsgType :=
| note_on
| note_off
| track_name
| other_type (kind : string).

Global Instance MsgType_eq_dec : EqDecision MsgType.
Proof. solve_decision. Defined.

(** The messages the script distinguishes: the two note messages, the
    [track_name] meta message that the [name] setter of a mido track
    edits, and everything else (control changes, tempo, ...), kept with
    its kind and payload. *)
Inductive Message :=
| NoteOn (channel note velocity time : Z)
| NoteOff (channel note velocity time : Z)
| TrackName (name : string) (time : Z)
| Other (kind : string) (data : list Z) (time : Z).

Global Instance Message_eq_dec : EqDecision Message.
Proof. solve_decision. Defined.

Definition msg_type (m : Message) : MsgType :=
  match m with
  | NoteOn _ _ _ _ => note_on
  | NoteOff _ _ _ _ => note_off
  | TrackName _ _ => track_name
  | Other k _ _ => other_type k
  end.

Definition msg_time (m : Message) : Z :=
  match m with
  | NoteOn _ _ _ t | NoteOff _ _ _ t | TrackName _ t | Other _ _ t => t
  end.

Definition is_note_on (m : Message) : bool :=
  bool_decide (msg_type m = note_on).

Definition is_note_off (m : Message) : bool :=
  bool_decide (msg_type m = note_off).

(** [msg.note], [msg.velocity] and [msg.channel] exist on note messages
    only; the script reads them behind a [msg.type == 'note_on'] test.
    The accessors return 0 elsewhere and are never consulted there. *)
Definition msg_note (m : Message) : Z :=
  match m with NoteOn _ n _ _ | NoteOff _ n _ _ => n | _ => 0 end.

Definition msg_velocity (m : Message) : Z :=
  match m with NoteOn _ _ v _ | NoteOff _ _ v _ => v | _ => 0 end.

Definition msg_channel (m : Message) : Z :=
  match m with NoteOn c _ _ _ | NoteOff c _ _ _ => c | _ => 0 end.

(** [msg.copy(note=n)], for [n] in 0..127 (mido raises ValueError
    otherwise) *)
Definition copy_note (n : Z) (m : Message) : Message :=
  match m with
  | NoteOn c _ v t => NoteOn c n v t
  | NoteOff c _ v t => NoteOff c n v t
  | _ => m
  end.

(** [msg.copy(velocity=v)], for [v] in 0..127 (mido raises ValueError
    otherwise) *)
Definition copy_velocity (v : Z) (m : Message) : Message :=
  match m with
  | NoteOn c n _ t => NoteOn c n v t
  | NoteOff c n _ t => NoteOff c n v t
  | _ => m
  end.

(** [msg.copy(time=t)] *)
Definition copy_time (t : Z) (m : Message) : Message :=
  match m with
  | NoteOn c n v _ => NoteOn c n v t
  | NoteOff c n v _ => NoteOff c n v t
  | TrackName s _ => TrackName s t
  | Other k d _ => Other k d t
  end.

(** ** Events and the event table *)

Record Event := mkEvent { tick : Z; track : Z; msg : Message }.

Global Instance Event_eq_dec : EqDecision Event.
Proof. solve_decision. Defined.

(** [{**event, "msg": m}] and [event["msg"] = m] *)
Definition with_msg (m : Message) (e : Event) : Event :=
  {| tick := tick e; track := track e; msg := m |}.

(** [event["track"] = tr] *)
Definition with_track (tr : Z) (e : Event) : Event :=
  {| tick := tick e; track := tr; msg := msg e |}.

Abbreviation EventTable := (gmap Z (list Event)).

(** ** Errors *)

Inductive error :=
| ValueError_tpb (actual expected : Z)   (* the resolution check of read_midi_events *)
| ValueError_min_empty                   (* min() of an empty sequence *)
| IndexError.                            (* list index out of range *)

Inductive result (A : Type) :=
| Ok (a : A)
| Err (e : error).
Arguments Ok {A} a.
Arguments Err {A} e.

Global Instance result_ret : MRet result := λ A a, Ok a.
Global Instance result_bind : MBind result := λ A B f r,
  match r with Ok a => f a | Err e => Err e end.

(** ** A parsed MIDI container *)

Record MidiFile := mkMidiFile {
  ticks_per_beat : Z;
  tracks : list (list Message)
}.

(** ** STEP 1: read_midi_events *)

(** [events_by_tick[abs_time].append(e)] on a [defaultdict(list)] *)
Definition append_event (events_by_tick : EventTable) (e : Event) : EventTable :=
  <[tick e := (events_by_tick !!! tick e) ++ [e]]> events_by_tick.

Fixpoint read_track (track_index abs_time : Z) (msgs : list Message)
    (events_by_tick : EventTable) : EventTable :=
  match msgs with
  | [] => events_by_tick
  | m :: rest =>
      let abs_time := abs_time + msg_time m in
      if is_note_off m then read_track track_index abs_time rest events_by_tick
      else read_track track_index abs_time rest
             (append_event events_by_tick
                {| tick := abs_time; track := track_index; msg := m |})
  end.

Fixpoint read_tracks (track_index : Z) (trks : list (list Message))
    (events_by_tick : EventTable) : EventTable :=
  match trks with
  | [] => events_by_tick
  | trk :: rest =>
      read_tracks (track_index + 1) rest (read_track track_index 0 trk events_by_tick)
  end.

Definition read_midi_events (mid : MidiFile) : result EventTable :=
  if bool_decide (ticks_per_beat mid ≠ EXPECTED_TPB)
  then Err (ValueError_tpb (ticks_per_beat mid) EXPECTED_TPB)
  else Ok (read_tracks 0 (tracks mid) ∅).

(** ** Stable sort by an integer key ([sorted], [list.sort(key=...)]) *)

Section sort_by.
Context {A : Type} (key : A → Z).

Fixpoint insert_by (x : A) (l : list A) : list A :=
  match l with
  | [] => [x]
  | y :: l' => if bool_decide (key x ≤ key y) then x :: y :: l'
               else y :: insert_by x l'
  end.

Definition sort_by (l : list A) : list A := foldr insert_by [] l.

(** The order the sort establishes. *)
Definition key_le (x y : A) : Prop := key x ≤ key y.
End sort_by.

(** [sorted(events_by_tick.keys())] *)
Definition sorted_keys {V : Type} (m : gmap Z V) : list Z :=
  sort_by id (map_to_list m).*1.

(** ** STEP 2: the rewrite passes *)

(** *** replace_composite_notes *)

(** [for i, e in enumerate(l): if p(e): indices.append(i)], counting
    from [i] *)
Fixpoint indices_from (p : Event → bool) (i : nat) (l : list Event) : list nat :=
  match l with
  | [] => []
  | e :: rest =>
      if p e then i :: indices_from p (S i) rest else indices_from p (S i) rest
  end.

(** [e["msg"].note in match_notes] *)
Definition in_match (match_notes : gset Z) (e : Event) : bool :=
  bool_decide (msg_note (msg e) ∈ match_notes).

(** [found_indices]: positions in [note_ons] whose note is in [match_notes] *)
Definition found_indices_from (match_notes : gset Z) (i : nat) (note_ons : list Event)
    : list nat :=
  indices_from (in_match match_notes) i note_ons.

(** [e for i, e in enumerate(l) if i in idx] and its complement *)
Fixpoint select_from (keep : bool) (idx : list nat) (i : nat) (l : list Event)
    : list Event :=
  match l with
  | [] => []
  | e :: rest =>
      if bool_decide (bool_decide (i ∈ idx) = keep)
      then e :: select_from keep idx (S i) rest
      else select_from keep idx (S i) rest
  end.

(** [min(seq, key=lambda e: e["msg"].note)]: the first element of minimal
    key; Python raises ValueError on an empty sequence. *)
Definition min_by_note (l : list Event) : result Event :=
  match l with
  | [] => Err ValueError_min_empty
  | e0 :: rest =>
      Ok (foldl (λ best e,
                   if bool_decide (msg_note (msg e) < msg_note (msg best))
                   then e else best) e0 rest)
  end.

(** The body of the loop over ticks: the new value of
    [events_by_tick[tick]]. *)
Definition composite_events (match_notes : gset Z) (replace_with : Z)
    (events : list Event) : result (list Event) :=
  let note_ons := filter (λ e, msg_type (msg e) = note_on) events in
  let other_events := filter (λ e, msg_type (msg e) ≠ note_on) events in
  let found_indices := found_indices_from match_notes 0 note_ons in
  if bool_decide (length found_indices = size match_notes) then
    base_event ← min_by_note (select_from true found_indices 0 note_ons);
    let new_msg := copy_note replace_with (msg base_event) in
    let new_event := with_msg new_msg base_event in
    let remaining_note_ons := select_from false found_indices 0 note_ons in
    Ok (remaining_note_ons ++ [new_event] ++ other_events)
  else Ok events.

(** One iteration of [for tick, events in list(events_by_tick.items())];
    an exception raised in an earlier iteration ends the loop. *)
Definition composite_step (match_notes : gset Z) (replace_with : Z)
    (acc : result EventTable) (item : Z * list Event) : result EventTable :=
  tbl ← acc;
  events' ← composite_events match_notes replace_with item.2;
  Ok (<[item.1 := events']> tbl).

Definition replace_composite_notes (events_by_tick : EventTable)
    (match_notes : gset Z) (replace_with : Z) : result EventTable :=
  foldl (composite_step match_notes replace_with)
        (Ok events_by_tick) (map_to_list events_by_tick).

(** *** replace_single_note *)

Definition single_note_event (from_note to_note : Z) (event : Event) : Event :=
  if bool_decide (msg_type (msg event) = note_on) && bool_decide (msg_note (msg event) = from_note)
  then with_msg (copy_note to_note (msg event)) event
  else event.

Definition replace_single_note (events_by_tick : EventTable) (from_note to_note : Z)
    : EventTable :=
  (λ events : list Event, single_note_event from_note to_note <$> events) <$> events_by_tick.

(** *** replace_track, replace_note_track *)

Definition replace_track (events_by_tick : EventTable) (from_track to_track : Z)
    : EventTable :=
  (λ tick_events : list Event,
     (λ event : Event, if bool_decide (track event = from_track)
               then with_track to_track event else event) <$> tick_events)
  <$> events_by_tick.

(** [msg.type == "note_on" and msg.note in notes] *)
Definition is_hit (notes : list Z) (m : Message) : bool :=
  bool_decide (msg_type m = note_on) && bool_decide (msg_note m ∈ notes).

Definition replace_note_track (events_by_tick : EventTable) (notes : list Z)
    (to_track : Z) : EventTable :=
  (λ tick_events : list Event,
     (λ event : Event, if is_hit notes (msg event)
               then with_track to_track event else event) <$> tick_events)
  <$> events_by_tick.

(** *** replace_note_if_velocity, replace_velocity_if_velocity *)

Definition flam_match (from_note from_vel : Z) (m : Message) : bool :=
  bool_decide (msg_type m = note_on) && bool_decide (msg_note m = from_note)
  && bool_decide (msg_velocity m = from_vel).

Definition replace_note_if_velocity (events_by_tick : EventTable)
    (from_note from_vel to_note : Z) : EventTable :=
  (λ events : list Event,
     (λ event : Event, if flam_match from_note from_vel (msg event)
               then with_msg (copy_velocity 100 (copy_note to_note (msg event))) event
               else event) <$> events)
  <$> events_by_tick.

Definition replace_velocity_if_velocity (events_by_tick : EventTable)
    (from_vel to_vel : Z) : EventTable :=
  (λ events : list Event,
     (λ event : Event, if bool_decide (msg_type (msg event) = note_on)
                  && bool_decide (msg_velocity (msg event) = from_vel)
               then with_msg (copy_velocity to_vel (msg event)) event
               else event) <$> events)
  <$> events_by_tick.

(** *** detect_flam *)

(** The inner loop over one tick's events: the events after the in-place
    updates, and [new_events]. *)
Fixpoint flam_loop (from_note from_vel to_note left_track right_track : Z)
    (tick_key : Z) (events : list Event) : list Event * list Event :=
  match events with
  | [] => ([], [])
  | event :: rest =>
      let '(events', new_events) :=
        flam_loop from_note from_vel to_note left_track right_track tick_key rest in
      let m := msg event in
      if flam_match from_note from_vel m then
        let new_right_msg := copy_velocity 100 (copy_note to_note m) in
        let event' := with_track right_track (with_msg new_right_msg event) in
        let left_msg := copy_velocity 100 (copy_note to_note m) in
        let left_event := {| msg := left_msg; track := left_track; tick := tick_key |} in
        (event' :: events', left_event :: new_events)
      else (event :: events', new_events)
  end.

Definition flam_tick (from_note from_vel to_note left_track right_track : Z)
    (tick_key : Z) (events : list Event) : list Event :=
  let '(events', new_events) :=
    flam_loop from_note from_vel to_note left_track right_track tick_key events in
  match new_events with
  | [] => events'
  | _ => events' ++ new_events
  end.

Definition detect_flam (events_by_tick : EventTable)
    (from_note from_vel to_note left_track right_track : Z) : EventTable :=
  map_imap (λ tick_key events,
              Some (flam_tick from_note from_vel to_note left_track right_track
                      tick_key events))
           events_by_tick.

(** *** assign_hands_for_note *)

(** A reference to an event dict held in the table: the tick key and the
    position in that tick's list. *)
Definition Loc : Type := Z * nat.

Definition event_at (events_by_tick : EventTable) (l : Loc) : option Event :=
  events_by_tick !! l.1 ≫= (λ events, events !! l.2).

(** [event["track"] = tr] through a reference *)
Definition set_track (events_by_tick : EventTable) (l : Loc) (tr : Z) : EventTable :=
  alter (alter (with_track tr) l.2) l.1 events_by_tick.

Definition hit_indices_from (notes : list Z) (i : nat) (events : list Event) : list nat :=
  indices_from (λ e, is_hit notes (msg e)) i events.

(** [note_hits]: the tick of each hit and the event it refers to *)
Definition note_hits (events_by_tick : EventTable) (notes : list Z) : list Loc :=
  t ← sorted_keys events_by_tick;
  (λ i, (t, i)) <$> hit_indices_from notes 0 (events_by_tick !!! t).

Definition TICKS_1_4 : Z := EXPECTED_TPB.
Definition TICKS_1_8 : Z := EXPECTED_TPB `div` 2.
Definition TICKS_1_16 : Z := EXPECTED_TPB `div` 4.

Definition is_strong_tick (t : Z) : bool :=
  let subdivision := t `mod` EXPECTED_TPB in
  bool_decide (subdivision = 0) || bool_decide (subdivision = TICKS_1_8).

(** One iteration of the second loop happens per call; [hits] is
    [note_hits[i:]], so [note_hits[i + 1]] is the head of the tail. *)
Fixpoint assign_loop (hits : list Loc) (left_track right_track : Z)
    (events_by_tick : EventTable) : EventTable :=
  match hits with
  | [] => events_by_tick
  | hit :: rest =>
      let t := hit.1 in
      let is_strong := is_strong_tick t in
      let is_weak_next :=
        is_strong &&
        match rest with
        | next :: _ => bool_decide (next.1 - t = TICKS_1_16)
        | [] => false
        end in
      let hand_track := if is_weak_next then right_track else left_track in
      let events_by_tick' :=
        if (is_strong && is_weak_next) || negb is_strong
        then set_track events_by_tick hit hand_track
        else events_by_tick in
      assign_loop rest left_track right_track events_by_tick'
  end.

Definition assign_hands_for_note (events_by_tick : EventTable) (notes : list Z)
    (left_track right_track : Z) : EventTable :=
  assign_loop (note_hits events_by_tick notes) left_track right_track events_by_tick.

(** ** STEP 3: write_midi *)

(** The events in the order of the grouping loop: ticks ascending, and
    within a tick the order of the list. *)
Definition events_in_tick_order (events_by_tick : EventTable) : list Event :=
  t ← sorted_keys events_by_tick; events_by_tick !!! t.

(** [track_events[event["track"]].append(event)] *)
Definition group_by_track (events : list Event) : gmap Z (list Event) :=
  foldl (λ (track_events : gmap Z (list Event)) event,
           <[track event := (track_events !!! track event) ++ [event]]> track_events)
        ∅ events.

(** [Message('note_off', note=msg.note, velocity=0, channel=msg.channel)] *)
Definition synthetic_note_off (m : Message) : Message :=
  NoteOff (msg_channel m) (msg_note m) 0 0.

Definition flat_events_of (events : list Event) : list (Z * Message) :=
  event ← events;
  (tick event, msg event) ::
  (if bool_decide (msg_type (msg event) = note_on)
   then [(tick event + DEFAULT_DURATION, synthetic_note_off (msg event))]
   else []).

Fixpoint delta_encode (last_tick : Z) (flat_events : list (Z * Message)) : list Message :=
  match flat_events with
  | [] => []
  | (t, m) :: rest => copy_time (t - last_tick) m :: delta_encode t rest
  end.

Definition synth_track (events : list Event) : list Message :=
  delta_encode 0 (sort_by fst (flat_events_of events)).

(** The track indices that get a [MidiTrack], in output order. *)
Definition emitted_tracks (track_events : gmap Z (list Event)) (in_track : Z) : list Z :=
  filter (λ track_index, ¬ (in_track >= 0 ∧ track_index ≠ in_track))
         (sorted_keys track_events).

(** [new_mid.tracks] when the loop over the tracks ends. *)
Definition synth_tracks (events_by_tick : EventTable) (in_track : Z) : list (list Message) :=
  let track_events := group_by_track (events_in_tick_order events_by_tick) in
  (λ track_index, synth_track (track_events !!! track_index))
  <$> emitted_tracks track_events in_track.

(** The [name] setter of a mido track: the first [track_name] message is
    renamed; when there is none, one is inserted in front at delta 0. *)
Fixpoint rename_first (name : string) (trk : list Message) : option (list Message) :=
  match trk with
  | [] => None
  | TrackName _ t :: rest => Some (TrackName name t :: rest)
  | m :: rest => (m ::.) <$> rename_first name rest
  end.

Definition set_name (name : string) (trk : list Message) : list Message :=
  match rename_first name trk with
  | Some trk' => trk'
  | None => TrackName name 0 :: trk
  end.

(** [l[i]] *)
Definition index {A : Type} (l : list A) (i : nat) : result A :=
  match l !! i with
  | Some x => Ok x
  | None => Err IndexError
  end.

(** The result is the container handed to [save]; an error means that no
    file is written. *)
Definition write_midi (events_by_tick : EventTable) (in_track : Z) : result MidiFile :=
  let new_tracks := synth_tracks events_by_tick in_track in
  t0 ← index new_tracks 0;
  let new_tracks := <[0%nat := set_name "RH" t0]> new_tracks in
  t1 ← index new_tracks 1;
  let new_tracks := <[1%nat := set_name "LH" t1]> new_tracks in
  Ok {| ticks_per_beat := EXPECTED_TPB; tracks := new_tracks |}.

(** ** MAIN *)

(** The block of [main] under "Transforming events": the rule script. *)
Definition transform (events : EventTable) : result EventTable :=
  events ← replace_composite_notes events {[110; 98]} 48;
  events ← replace_composite_notes events {[111; 99]} 45;
  events ← replace_composite_notes events {[112; 100]} 43;
  let events := replace_single_note events 96 36 in
  let events := replace_single_note events 95 36 in
  let events := replace_single_note events 97 38 in
  let events := replace_single_note events 98 42 in
  let events := replace_single_note events 99 51 in
  let events := replace_single_note events 100 49 in
  let events := replace_note_if_velocity events 49 127 44 in
  let events := replace_note_if_velocity events 42 127 46 in
  let events := replace_velocity_if_velocity events 1 20 in
  let events := replace_note_track events [38] 5 in
  let events := assign_hands_for_note events [38; 42] 5 6 in
  let events := assign_hands_for_note events [38; 48; 45; 43] 5 6 in
  let events := detect_flam events 38 127 38 5 6 in
  let events := replace_track events 0 2 in
  let events := replace_track events 1 2 in
  let events := replace_track events 6 2 in
  Ok events.

Definition main (mid : MidiFile) : result MidiFile :=
  events ← read_midi_events mid;
  events ← transform events;
  write_midi events (-1).

(** ** Predicates and sample tables used in the statements *)

(** No event of the table is a note-off. *)
Definition no_note_off (events_by_tick : EventTable) : Prop :=
  ∀ l e, event_at events_by_tick l = Some e → msg_type (msg e) ≠ note_off.

(** Every event is filed under its own tick. *)
Definition ticks_agree (events_by_tick : EventTable) : Prop :=
  ∀ l e, event_at events_by_tick l = Some e → tick e = l.1.

(** A kick at tick 0 and a control change at tick 3, both on track 0. *)
Definition kick_table : EventTable :=
  {[ 0 := [mkEvent 0 0 (NoteOn 9 96 100 0)];
     3 := [mkEvent 3 0 (Other "control_change" [7; 100] 3)] ]}.

(** The wording of the hand-assignment rule. *)
Definition strong_beat (t : Z) : Prop :=
  t `mod` 96 = 0 ∨ t `mod` 96 = 48.

(** The hit after position [i] exists and is exactly 24 ticks after [t]. *)
Definition next_hit_is_sixteenth (hits : list Loc) (i : nat) (t : Z) : Prop :=
  ∃ next, hits !! S i = Some next ∧ next.1 - t = 24.

(** The hand-assignment rule with one track in the off-hand role for both
    the strong beat before a sixteenth and the weak beat, and one track in
    the dominant-hand role. *)
Definition routes_with_roles (events_by_tick : EventTable) (notes : list Z)
    (left_track right_track off_hand dominant_hand : Z) : Prop :=
  let hits := note_hits events_by_tick notes in
  ∀ i l e',
    hits !! i = Some l →
    event_at (assign_hands_for_note events_by_tick notes left_track right_track) l
    = Some e' →
    (strong_beat l.1 → next_hit_is_sixteenth hits i l.1 → track e' = off_hand) ∧
    (strong_beat l.1 → ¬ next_hit_is_sixteenth hits i l.1 → track e' = dominant_hand) ∧
    (¬ strong_beat l.1 → track e' = off_hand).

(** Two snare hits a sixteenth apart, at ticks 0 and 24, on track 0. *)
Definition two_hits_table : EventTable :=
  {[ 0 := [mkEvent 0 0 (NoteOn 9 38 100 0)];
     24 := [mkEvent 24 0 (NoteOn 9 38 100 24)] ]}.

(** The track on which [assign_hands_for_note] leaves a hit at tick [t]
    that was on track [old], given the tick of the following hit. *)
Definition hand_of (left_track right_track : Z) (t : Z) (next : option Z) (old : Z) : Z :=
  if is_strong_tick t then
    match next with
    | Some t' => if bool_decide (t' - t = TICKS_1_16) then right_track else old
    | None => old
    end
  else left_track.

(** Event [e] is stored under tick key [t]. *)
Definition stored (events_by_tick : EventTable) (t : Z) (e : Event) : Prop :=
  ∃ events, events_by_tick !! t = Some events ∧ e ∈ events.

(** [e'], found under key [t], comes from [e]: the message type is kept,
    and the tick is the one of [e] or the key. *)
Definition derives (t : Z) (e e' : Event) : Prop :=
  msg_type (msg e') = msg_type (msg e) ∧ (tick e' = tick e ∨ tick e' = t).

(** Every event of [tbl'] comes from an event of [tbl] under the same key. *)
Definition pass_derives (tbl tbl' : EventTable) : Prop :=
  ∀ t e', stored tbl' t e' → ∃ e, stored tbl t e ∧ derives t e e'.

(** The two events [detect_flam] makes of a matching event [e] under key
    [t]: the one that takes the place of [e], and the inserted duplicate. *)
Definition flam_right (to_note right_track : Z) (e : Event) : Event :=
  {| tick := tick e; track := right_track;
     msg := NoteOn (msg_channel (msg e)) to_note 100 (msg_time (msg e)) |}.

Definition flam_left (to_note left_track : Z) (t : Z) (e : Event) : Event :=
  {| tick := t; track := left_track;
     msg := NoteOn (msg_channel (msg e)) to_note 100 (msg_time (msg e)) |}.

(** A flam (snare at velocity 127) next to a plain snare hit, at tick 24. *)
Definition flam_table : EventTable :=
  {[ 24 := [mkEvent 24 5 (NoteOn 9 38 127 24); mkEvent 24 5 (NoteOn 9 38 90 0)] ]}.

(** Tick 0 holds note 110 twice (on tracks 0 and 1) and no note 98. *)
Definition doubled_tom_table : EventTable :=
  {[ 0 := [mkEvent 0 0 (NoteOn 9 110 100 0); mkEvent 0 1 (NoteOn 9 110 90 0)] ]}.

(** A container that ingests to [doubled_tom_table]: two tracks that both
    open with note 110. *)
Definition doubled_tom_mid : MidiFile :=
  {| ticks_per_beat := 96;
     tracks := [[NoteOn 9 110 100 0]; [NoteOn 9 110 90 0]] |}.

(** Tick 0 holds notes 110 and 98, the latter twice. *)
Definition doubled_hat_table : EventTable :=
  {[ 0 := [mkEvent 0 0 (NoteOn 9 110 100 0); mkEvent 0 0 (NoteOn 9 98 100 0);
           mkEvent 0 1 (NoteOn 9 98 90 0)] ]}.

(** Note [n] is present as a note-on in [events]. *)
Definition note_on_present (events : list Event) (n : Z) : Prop :=
  ∃ e, e ∈ events ∧ msg_type (msg e) = note_on ∧ msg_note (msg e) = n.

(** The absolute tick of the message at position [i] of a track: the sum
    of the delta times up to and including it. *)
Definition abs_time_of (trk : list Message) (i : nat) : Z :=
  foldr Z.add 0 (msg_time <$> take (S i) trk).

(** The event ingestion makes of message [i] of track [k]. *)
Definition ingested (mid : MidiFile) (e : Event) : Prop :=
  ∃ (k i : nat) trk m,
    tracks mid !! k = Some trk ∧ trk !! i = Some m ∧ msg_type m ≠ note_off ∧
    e = {| tick := abs_time_of trk i; track := Z.of_nat k; msg := m |}.

(** A container at resolution 480, and one at resolution 96 that holds a
    note number outside the MIDI range and a note-off. *)
Definition mid_480 : MidiFile :=
  {| ticks_per_beat := 480; tracks := [[NoteOn 9 96 100 0]] |}.

Definition mid_96 : MidiFile :=
  {| ticks_per_beat := 96;
     tracks := [[NoteOn 9 300 100 0; NoteOff 9 300 0 10];
                [NoteOn 9 38 100 24]] |}.

(** The track index behind each output track, in output order. *)
Definition emitted_ids (events_by_tick : EventTable) (in_track : Z) : list Z :=
  emitted_tracks (group_by_track (events_in_tick_order events_by_tick)) in_track.

(** Reading an output track back: every message with its absolute tick,
    the running sum of the delta times. *)
Fixpoint abs_times (last_tick : Z) (trk : list Message) : list (Z * Message) :=
  match trk with
  | [] => []
  | m :: rest =>
      let t := last_tick + msg_time m in (t, m) :: abs_times t rest
  end.

(** How many messages of a track have type [ty]. *)
Definition count_type (ty : MsgType) (trk : list Message) : nat :=
  length (filter (λ m, msg_type m = ty) trk).

(** Output tracks [trks], built for the track indices [ids], pair every
    note-on of the table with a note-off [DEFAULT_DURATION] ticks later in
    the same track, hold no other note-off, and hold as many note-offs as
    note-ons. *)
Definition note_offs_paired (events_by_tick : EventTable) (ids : list Z)
    (trks : list (list Message)) : Prop :=
  (∀ (k : nat) trk, trks !! k = Some trk →
     count_type note_off trk = count_type note_on trk) ∧
  (∀ t e, stored events_by_tick t e → msg_type (msg e) = note_on →
     ∃ (k : nat) trk δ δ',
       ids !! k = Some (track e) ∧ trks !! k = Some trk ∧
       (tick e, copy_time δ (msg e)) ∈ abs_times 0 trk ∧
       (tick e + DEFAULT_DURATION,
        NoteOff (msg_channel (msg e)) (msg_note (msg e)) 0 δ') ∈ abs_times 0 trk) ∧
  (∀ (k : nat) trk a m,
     trks !! k = Some trk → (a, m) ∈ abs_times 0 trk → msg_type m = note_off →
     ∃ t e,
       ids !! k = Some (track e) ∧ stored events_by_tick t e ∧
       msg_type (msg e) = note_on ∧ a = tick e + DEFAULT_DURATION ∧
       msg_channel m = msg_channel (msg e) ∧ msg_note m = msg_note (msg e) ∧
       msg_velocity m = 0).

(** A snare on track 5 and a kick with a control change on track 2. *)
Definition final_table : EventTable :=
  {[ 0 := [mkEvent 0 2 (NoteOn 9 36 100 0); mkEvent 0 5 (NoteOn 9 38 100 0)];
     4 := [mkEvent 4 2 (Other "control_change" [7; 100] 4)] ]}.

(** ** Sample tables for the remaining passes *)

(** A pedal hi-hat marker (note 49 at velocity 127), a crash (note 49 at
    velocity 50) and a ghost note (velocity 1) at tick 0, a tempo message
    at tick 4. *)
Definition velocity_table : EventTable :=
  {[ 0 := [mkEvent 0 0 (NoteOn 9 49 127 0); mkEvent 0 0 (NoteOn 9 49 50 0);
           mkEvent 0 1 (NoteOn 9 38 1 0)];
     4 := [mkEvent 4 0 (Other "set_tempo" [500000] 4)] ]}.

(** The per-event rewrite of each mapping pass. *)
Definition note_if_velocity_event (from_note from_vel to_note : Z) (event : Event) : Event :=
  if flam_match from_note from_vel (msg event)
  then with_msg (copy_velocity 100 (copy_note to_note (msg event))) event
  else event.

Definition velocity_event (from_vel to_vel : Z) (event : Event) : Event :=
  if bool_decide (msg_type (msg event) = note_on)
     && bool_decide (msg_velocity (msg event) = from_vel)
  then with_msg (copy_velocity to_vel (msg event)) event
  else event.

Definition track_event (from_track to_track : Z) (event : Event) : Event :=
  if bool_decide (track event = from_track) then with_track to_track event else event.

Definition note_track_event (notes : list Z) (to_track : Z) (event : Event) : Event :=
  if is_hit notes (msg event) then with_track to_track event else event.

(** No event of the table is on track [c]. *)
Definition no_track (c : Z) (events_by_tick : EventTable) : Prop :=
  ∀ l e, event_at events_by_tick l = Some e → track e ≠ c.

(** No note-on of the table has note [n]; no note-on has velocity [v]. *)
Definition no_note (n : Z) (events_by_tick : EventTable) : Prop :=
  ∀ l e, event_at events_by_tick l = Some e →
         msg_type (msg e) = note_on → msg_note (msg e) ≠ n.

Definition no_velocity (v : Z) (events_by_tick : EventTable) : Prop :=
  ∀ l e, event_at events_by_tick l = Some e →
         msg_type (msg e) = note_on → msg_velocity (msg e) ≠ v.

(** The note-ons of a tick, those among them whose note is in the match
    set, those whose note is not, and the events that are not note-ons. *)
Definition note_ons_of (events : list Event) : list Event :=
  filter (λ e, msg_type (msg e) = note_on) events.

Definition matched_of (match_notes : gset Z) (events : list Event) : list Event :=
  filter (λ e, in_match match_notes e = true) (note_ons_of events).

Definition unmatched_of (match_notes : gset Z) (events : list Event) : list Event :=
  filter (λ e, in_match match_notes e = false) (note_ons_of events).

Definition others_of (events : list Event) : list Event :=
  filter (λ e, msg_type (msg e) ≠ note_on) events.

(** Toms 110 and 98 together with a tempo message and a kick at tick 0;
    a lone 110 at tick 48. *)
Definition tom_table : EventTable :=
  {[ 0 := [mkEvent 0 0 (Other "set_tempo" [500000] 0); mkEvent 0 0 (NoteOn 9 110 90 0);
           mkEvent 0 0 (NoteOn 9 96 100 0); mkEvent 0 0 (NoteOn 9 98 100 0)];
     48 := [mkEvent 48 0 (NoteOn 9 110 100 48)] ]}.

(** A timed message with its delta time blanked: what two timelines are
    compared on. *)
Definition erase_time (p : Z * Message) : Z * Message := (p.1, copy_time 0 p.2).

(** The [name] getter of a mido track: the name of the first [track_name]
    message, the empty string when there is none. *)
Fixpoint name_of (trk : list Message) : string :=
  match trk with
  | [] => EmptyString
  | TrackName s _ :: _ => s
  | _ :: rest => name_of rest
  end.

(** Every event of the table has a tick that is not negative. *)
Definition nonneg_ticks (events_by_tick : EventTable) : Prop :=
  ∀ l e, event_at events_by_tick l = Some e → 0 ≤ tick e.

(** Every delta time of a container is non-negative. *)
Definition nonneg_deltas (mid : MidiFile) : Prop :=
  ∀ trk m, trk ∈ tracks mid → m ∈ trk → 0 ≤ msg_time m.

(** A hi-hat and kick groove with a snare, two beats long, on one input
    track: kick and hi-hat on the beat, hi-hat on the eighths, snare on
    beat two. *)
Definition groove_mid : MidiFile :=
  {| ticks_per_beat := 96;
     tracks := [[TrackName "PART DRUMS" 0;
                 NoteOn 9 96 100 0; NoteOn 9 98 100 0; NoteOff 9 96 0 10;
                 NoteOn 9 98 100 38; NoteOn 9 97 100 48; NoteOn 9 98 100 0;
                 NoteOn 9 98 100 48]] |}.

(** The events of a container in file order: track after track, message
    after message, note-offs left out, each with its absolute tick. *)
Fixpoint track_events_from (track_index abs_time : Z) (msgs : list Message) : list Event :=
  match msgs with
  | [] => []
  | m :: rest =>
      let abs_time := abs_time + msg_time m in
      if is_note_off m then track_events_from track_index abs_time rest
      else {| tick := abs_time; track := track_index; msg := m |}
           :: track_events_from track_index abs_time rest
  end.

Fixpoint container_events_from (track_index : Z) (trks : list (list Message)) : list Event :=
  match trks with
  | [] => []
  | trk :: rest =>
      track_events_from track_index 0 trk ++ container_events_from (track_index + 1) rest
  end.

(** * Properties *)

(** ** Messages and events *)

Lemma msg_type_copy_note n m : msg_type (copy_note n m) = msg_type m.
Proof. by destruct m. Qed.

Lemma msg_type_copy_velocity v m : msg_type (copy_velocity v m) = msg_type m.
Proof. by destruct m. Qed.

Lemma msg_type_copy_time t m : msg_type (copy_time t m) = msg_type m.
Proof. by destruct m. Qed.

Lemma msg_note_copy_note n m :
  msg_type m = note_on → msg_note (copy_note n m) = n.
Proof. by destruct m. Qed.

Lemma note_on_inv m :
  msg_type m = note_on →
  m = NoteOn (msg_channel m) (msg_note m) (msg_velocity m) (msg_time m).
Proof. by destruct m. Qed.

(** An event is stored in the table at location [l]. *)
Lemma event_at_Some (events_by_tick : EventTable) l e :
  event_at events_by_tick l = Some e ↔
  ∃ events, events_by_tick !! l.1 = Some events ∧ events !! l.2 = Some e.
Proof.
  unfold event_at. destruct (events_by_tick !! l.1) as [events|]; simpl.
  - split; [eauto | by intros (? & [= <-] & ?)].
  - split; [done | by intros (? & ? & ?)].
Qed.

(** ** replace_single_note *)

Section single_note.
Variables from_note to_note : Z.

Lemma single_note_event_hit e :
  msg_type (msg e) = note_on → msg_note (msg e) = from_note →
  single_note_event from_note to_note e
  = {| tick := tick e; track := track e;
       msg := NoteOn (msg_channel (msg e)) to_note (msg_velocity (msg e))
                     (msg_time (msg e)) |}.
Proof.
  intros Hty Hn. unfold single_note_event.
  rewrite !bool_decide_eq_true_2 by done. simpl.
  unfold with_msg. f_equal. by destruct (msg e).
Qed.

Lemma single_note_event_miss e :
  ¬ (msg_type (msg e) = note_on ∧ msg_note (msg e) = from_note) →
  single_note_event from_note to_note e = e.
Proof.
  intros Hno. unfold single_note_event.
  do 2 case_bool_decide; simpl; tauto.
Qed.

Lemma single_note_event_idem e :
  from_note ≠ to_note →
  single_note_event from_note to_note (single_note_event from_note to_note e)
  = single_note_event from_note to_note e.
Proof.
  intros Hne.
  destruct (decide (msg_type (msg e) = note_on ∧ msg_note (msg e) = from_note))
    as [[Hty Hn]|Hno].
  - rewrite (single_note_event_hit e) by done.
    apply single_note_event_miss. simpl. intros [_ ?]. congruence.
  - by rewrite !(single_note_event_miss e).
Qed.

Lemma lookup_replace_single_note (events_by_tick : EventTable) t :
  replace_single_note events_by_tick from_note to_note !! t
  = (fmap (single_note_event from_note to_note)) <$> (events_by_tick !! t).
Proof. unfold replace_single_note. by rewrite lookup_fmap. Qed.

Lemma event_at_replace_single_note (events_by_tick : EventTable) l :
  event_at (replace_single_note events_by_tick from_note to_note) l
  = single_note_event from_note to_note <$> event_at events_by_tick l.
Proof.
  unfold event_at. rewrite lookup_replace_single_note.
  destruct (events_by_tick !! l.1) as [events|]; simpl; [|done].
  by rewrite list_lookup_fmap.
Qed.
End single_note.

(** A remap that hits some event changes the table. *)
Lemma replace_single_note_changes (events_by_tick : EventTable) from_note to_note l e :
  from_note ≠ to_note →
  event_at events_by_tick l = Some e →
  msg_type (msg e) = note_on → msg_note (msg e) = from_note →
  replace_single_note (replace_single_note events_by_tick from_note to_note)
                      from_note to_note ≠ events_by_tick.
Proof.
  intros Hne Hat Hty Hn Heq.
  apply (f_equal (λ tbl, event_at tbl l)) in Heq.
  rewrite !event_at_replace_single_note, Hat in Heq. simpl in Heq.
  rewrite single_note_event_idem, (single_note_event_hit _ _ e) in Heq by done.
  injection Heq as Heq. apply (f_equal (λ e, msg_note (msg e))) in Heq.
  simpl in Heq. congruence.
Qed.

(** C8. The unconditional single-note remap is total, for a [to_note]
    that is a MIDI note number (0..127, what [copy] accepts): the table
    keeps its ticks and, tick by tick, the number of events; a note-on whose
    note is [from_note] comes out as a note-on with note [to_note] and the
    same channel, velocity, delta time, track and tick; every other event
    (another note number, or not a note-on) comes out identical. *)
Theorem replace_single_note_total (events_by_tick : EventTable) from_note to_note :
  0 ≤ to_note ≤ 127 →
  dom (replace_single_note events_by_tick from_note to_note) = dom events_by_tick ∧
  ∀ t events, events_by_tick !! t = Some events →
    ∃ events',
      replace_single_note events_by_tick from_note to_note !! t = Some events' ∧
      length events' = length events ∧
      ∀ i e, events !! i = Some e →
        ∃ e', events' !! i = Some e' ∧
          (msg_type (msg e) = note_on → msg_note (msg e) = from_note →
             msg_type (msg e') = note_on ∧ msg_note (msg e') = to_note ∧
             msg_velocity (msg e') = msg_velocity (msg e) ∧
             msg_channel (msg e') = msg_channel (msg e) ∧
             msg_time (msg e') = msg_time (msg e) ∧
             track e' = track e ∧ tick e' = tick e) ∧
          (¬ (msg_type (msg e) = note_on ∧ msg_note (msg e) = from_note) → e' = e).
Proof.
  intros _. split.
  { unfold replace_single_note. apply dom_fmap_L. }
  intros t events Ht.
  exists (single_note_event from_note to_note <$> events). split; [|split].
  - by rewrite lookup_replace_single_note, Ht.
  - apply length_fmap.
  - intros i e Hi. exists (single_note_event from_note to_note e). split; [|split].
    + by rewrite list_lookup_fmap, Hi.
    + intros Hty Hn. by rewrite single_note_event_hit.
    + apply single_note_event_miss.
Qed.

Lemma replace_single_note_total_witness :
  ∃ e', replace_single_note kick_table 96 36 !! 0 = Some [e'] ∧
        msg e' = NoteOn 9 36 100 0 ∧ track e' = 0 ∧ tick e' = 0.
Proof.
  destruct (replace_single_note_total kick_table 96 36 ltac:(lia)) as [_ H].
  destruct (H 0 [mkEvent 0 0 (NoteOn 9 96 100 0)] eq_refl) as (events' & Hl & Hlen & Hev).
  destruct (Hev 0%nat (mkEvent 0 0 (NoteOn 9 96 100 0)) eq_refl) as (e' & He' & Hhit & _).
  destruct (Hhit eq_refl eq_refl) as (Hty & Hn & Hv & Hc & Htm & Htr & Htk).
  exists e'. split; [|split; [|split]]; try done.
  - rewrite Hl. f_equal. destruct events' as [|x [|]]; try done.
    simpl in He'. by injection He' as ->.
  - rewrite (note_on_inv _ Hty), Hn, Hv, Hc, Htm. done.
Defined.

(** C9. Note renumbering is not self-inverse: there is a table holding a
    note-on with note 96 on which the remap 96 -> 36 applied twice does not
    give the table back. *)
Theorem replace_single_note_not_self_inverse :
  ∃ events_by_tick : EventTable,
    (∃ l e, event_at events_by_tick l = Some e ∧
            msg_type (msg e) = note_on ∧ msg_note (msg e) = 96) ∧
    replace_single_note (replace_single_note events_by_tick 96 36) 96 36
    ≠ events_by_tick.
Proof.
  exists kick_table.
  assert (Hat : event_at kick_table (0, 0%nat) = Some (mkEvent 0 0 (NoteOn 9 96 100 0)))
    by reflexivity.
  split.
  - by exists (0, 0%nat), (mkEvent 0 0 (NoteOn 9 96 100 0)).
  - by eapply replace_single_note_changes.
Qed.

(** C10. The unconditional single-note remap is idempotent when
    [from_note] and [to_note] differ: a second application changes nothing,
    and after the first one no note-on carries [from_note]. *)
Theorem replace_single_note_idempotent (events_by_tick : EventTable) from_note to_note :
  from_note ≠ to_note →
  replace_single_note (replace_single_note events_by_tick from_note to_note)
                      from_note to_note
  = replace_single_note events_by_tick from_note to_note ∧
  ∀ l e, event_at (replace_single_note events_by_tick from_note to_note) l = Some e →
         msg_type (msg e) = note_on → msg_note (msg e) ≠ from_note.
Proof.
  intros Hne. split.
  - unfold replace_single_note. rewrite <- map_fmap_compose.
    apply map_fmap_ext. intros t events _. simpl.
    rewrite <- list_fmap_compose. apply list_fmap_ext. intros i e _. simpl.
    by apply single_note_event_idem.
  - intros l e. rewrite event_at_replace_single_note.
    destruct (event_at events_by_tick l) as [e0|]; [|done].
    simpl. intros [= <-].
    destruct (decide (msg_type (msg e0) = note_on ∧ msg_note (msg e0) = from_note))
      as [[Hty Hn]|Hno].
    + rewrite single_note_event_hit by done. simpl. congruence.
    + rewrite single_note_event_miss by done. tauto.
Qed.

Lemma replace_single_note_idempotent_witness :
  replace_single_note (replace_single_note kick_table 96 36) 96 36
  = replace_single_note kick_table 96 36.
Proof. apply (replace_single_note_idempotent kick_table 96 36). lia. Defined.

(** ** The stable sort *)

Section sort_by_facts.
Context {A : Type} (key : A → Z).

Lemma insert_by_Permutation x l : insert_by key x l ≡ₚ x :: l.
Proof.
  induction l as [|y l IH]; simpl; [done|].
  case_bool_decide; [done|]. rewrite IH. apply Permutation_swap.
Qed.

Lemma sort_by_Permutation l : sort_by key l ≡ₚ l.
Proof.
  induction l as [|x l IH]; simpl; [done|].
  by rewrite insert_by_Permutation, IH.
Qed.

Lemma elem_of_sort_by x l : x ∈ sort_by key l ↔ x ∈ l.
Proof. by rewrite sort_by_Permutation. Qed.

Lemma NoDup_sort_by l : NoDup l → NoDup (sort_by key l).
Proof. by rewrite sort_by_Permutation. Qed.

Lemma insert_by_Sorted x l :
  Sorted (key_le key) l → Sorted (key_le key) (insert_by key x l).
Proof.
  induction 1 as [|y l Hs IH Hhd]; simpl.
  - by repeat constructor.
  - case_bool_decide.
    + repeat constructor; done.
    + constructor; [done|].
      destruct Hhd as [|z l Hyz]; simpl.
      * constructor. unfold key_le. lia.
      * case_bool_decide; constructor; unfold key_le in *; lia.
Qed.

Lemma sort_by_Sorted l : Sorted (key_le key) (sort_by key l).
Proof. induction l; simpl; [constructor | by apply insert_by_Sorted]. Qed.
End sort_by_facts.

Lemma elem_of_sorted_keys {V} (m : gmap Z V) t :
  t ∈ sorted_keys m ↔ is_Some (m !! t).
Proof.
  unfold sorted_keys. rewrite elem_of_sort_by, list_elem_of_fmap. split.
  - intros ([t' v] & -> & Hin). apply elem_of_map_to_list in Hin. by exists v.
  - intros [v Hv]. exists (t, v). split; [done|]. by apply elem_of_map_to_list.
Qed.

Lemma NoDup_sorted_keys {V} (m : gmap Z V) : NoDup (sorted_keys m).
Proof. apply NoDup_sort_by, NoDup_fst_map_to_list. Qed.

(** ** assign_hands_for_note *)

Lemma elem_of_indices_from p i events j :
  j ∈ indices_from p i events ↔
  (i ≤ j)%nat ∧ ∃ e, events !! (j - i)%nat = Some e ∧ p e = true.
Proof.
  revert i. induction events as [|e events IH]; intros i; simpl.
  - split; [inv 1 | by intros (_ & ? & ? & _)].
  - assert (Hstep : j ∈ indices_from p (S i) events ↔
       (i < j)%nat ∧ ∃ e', (e :: events) !! (j - i)%nat = Some e' ∧ p e' = true).
    { rewrite IH. split.
      - intros (Hle & e' & He' & Hh). split; [lia|]. exists e'. split; [|done].
        by replace (j - i)%nat with (S (j - S i)) by lia.
      - intros (Hlt & e' & He' & Hh). split; [lia|]. exists e'. split; [|done].
        by replace (j - i)%nat with (S (j - S i)) in He' by lia. }
    destruct (p e) eqn:Hhit.
    + rewrite elem_of_cons, Hstep. split.
      * intros [->|(Hlt & Hex)]; [|split; [lia|done]].
        split; [lia|]. exists e. by rewrite Nat.sub_diag.
      * intros (Hle & Hex). destruct (decide (j = i)) as [->|]; [by left|].
        right. split; [lia|done].
    + rewrite Hstep. split.
      * intros (Hlt & Hex). split; [lia|done].
      * intros (Hle & e' & He' & Hh). destruct (decide (j = i)) as [->|].
        -- rewrite Nat.sub_diag in He'. simpl in He'. congruence.
        -- split; [lia|]. by exists e'.
Qed.

Lemma NoDup_indices_from p i events : NoDup (indices_from p i events).
Proof.
  revert i. induction events as [|e events IH]; intros i; simpl; [constructor|].
  destruct (p e); [|done].
  constructor; [|done]. rewrite elem_of_indices_from. lia.
Qed.

(** The hits are the locations of the note-ons whose note is in [notes]. *)
Lemma elem_of_note_hits (events_by_tick : EventTable) notes l :
  l ∈ note_hits events_by_tick notes ↔
  ∃ e, event_at events_by_tick l = Some e ∧ is_hit notes (msg e) = true.
Proof.
  unfold note_hits. rewrite list_elem_of_bind. split.
  - intros (t & Hl & Ht). apply list_elem_of_fmap in Hl as (j & -> & Hj).
    apply elem_of_indices_from in Hj as (_ & e & He & Hh).
    apply elem_of_sorted_keys in Ht as [events Hev].
    rewrite lookup_total_alt, Hev, Nat.sub_0_r in He. simpl in He.
    exists e. split; [|done]. apply event_at_Some. by exists events.
  - intros (e & Hat & Hh). apply event_at_Some in Hat as (events & Hev & He).
    exists l.1. split; [|apply elem_of_sorted_keys; eauto].
    apply list_elem_of_fmap. exists l.2. split; [by destruct l|].
    apply elem_of_indices_from. split; [lia|]. exists e.
    by rewrite lookup_total_alt, Hev, Nat.sub_0_r.
Qed.

Lemma NoDup_note_hits (events_by_tick : EventTable) notes :
  NoDup (note_hits events_by_tick notes).
Proof.
  unfold note_hits. apply NoDup_bind.
  - intros t1 t2 l _ _ H1 H2.
    apply list_elem_of_fmap in H1 as (? & -> & _).
    apply list_elem_of_fmap in H2 as (? & [= -> _] & _). done.
  - intros t _. apply NoDup_fmap_2; [|apply NoDup_indices_from].
    by intros ?? [= ->].
  - apply NoDup_sorted_keys.
Qed.

Lemma with_track_same e : with_track (track e) e = e.
Proof. by destruct e. Qed.

Lemma event_at_set_track (events_by_tick : EventTable) l tr l' :
  event_at (set_track events_by_tick l tr) l'
  = (if decide (l = l') then with_track tr else id) <$> event_at events_by_tick l'.
Proof.
  unfold event_at, set_track. destruct l as [t j], l' as [t' j']; simpl.
  rewrite lookup_alter. destruct (decide (t = t')) as [->|Hne].
  - destruct (events_by_tick !! t') as [events|]; simpl.
    + rewrite list_lookup_alter. destruct (decide (j = j')) as [->|Hj].
      * by rewrite decide_True.
      * rewrite decide_False by congruence. by destruct (events !! j').
    + done.
  - rewrite decide_False by congruence.
    destruct (events_by_tick !! t') as [events|]; simpl; [|done].
    by destruct (events !! j').
Qed.

Lemma event_at_set_track_ne (events_by_tick : EventTable) l tr l' :
  l ≠ l' → event_at (set_track events_by_tick l tr) l' = event_at events_by_tick l'.
Proof.
  intros Hne. rewrite event_at_set_track, decide_False by done.
  by destruct (event_at events_by_tick l').
Qed.

(** The loop leaves alone every location that is not a hit. *)
Lemma assign_loop_other hits left_track right_track (events_by_tick : EventTable) l :
  l ∉ hits →
  event_at (assign_loop hits left_track right_track events_by_tick) l
  = event_at events_by_tick l.
Proof.
  revert events_by_tick. induction hits as [|hit rest IH]; intros tbl Hnin; [done|].
  apply not_elem_of_cons in Hnin as [Hne Hnin]. simpl. rewrite IH by done.
  destruct (_ || _); [|done]. by apply event_at_set_track_ne.
Qed.

(** What the loop does to the hit at position [i]. *)
Lemma assign_loop_hit hits left_track right_track (events_by_tick : EventTable) i l :
  NoDup hits → hits !! i = Some l →
  event_at (assign_loop hits left_track right_track events_by_tick) l
  = (λ e, with_track
            (hand_of left_track right_track l.1 (fst <$> hits !! S i) (track e)) e)
    <$> event_at events_by_tick l.
Proof.
  revert events_by_tick i.
  induction hits as [|hit rest IH]; intros tbl i Hnd Hi; [done|].
  apply NoDup_cons in Hnd as [Hnin Hnd]. destruct i as [|i]; simpl in Hi.
  - injection Hi as ->. simpl. rewrite assign_loop_other by done.
    unfold hand_of. destruct (is_strong_tick l.1) eqn:Hs; simpl.
    + destruct rest as [|next rest']; simpl.
      * destruct (event_at tbl l) as [e|]; simpl; [|done]. by rewrite with_track_same.
      * case_bool_decide; simpl.
        -- rewrite event_at_set_track, decide_True by done. done.
        -- destruct (event_at tbl l) as [e|]; simpl; [|done].
           by rewrite with_track_same.
    + rewrite event_at_set_track, decide_True by done. done.
  - simpl. rewrite (IH _ i) by done.
    assert (hit ≠ l) as Hne.
    { intros ->. apply Hnin. by eapply list_elem_of_lookup_2. }
    destruct (_ || _); [|done]. by rewrite event_at_set_track_ne.
Qed.

Lemma is_strong_tick_spec t : is_strong_tick t = true ↔ strong_beat t.
Proof.
  unfold is_strong_tick, strong_beat, TICKS_1_8, EXPECTED_TPB.
  change (96 `div` 2) with 48.
  rewrite orb_true_iff, !bool_decide_eq_true. done.
Qed.

Section hand_of_cases.
Variables (left_track right_track : Z) (hits : list Loc) (i : nat) (t old : Z).

Let next := fst <$> hits !! S i.

Lemma hand_of_sixteenth :
  strong_beat t → next_hit_is_sixteenth hits i t →
  hand_of left_track right_track t next old = right_track.
Proof.
  intros Hs (l' & Hl' & Hd). apply is_strong_tick_spec in Hs.
  unfold hand_of, next. rewrite Hs, Hl'. simpl.
  by rewrite bool_decide_eq_true_2.
Qed.

Lemma hand_of_strong_alone :
  strong_beat t → ¬ next_hit_is_sixteenth hits i t →
  hand_of left_track right_track t next old = old.
Proof.
  intros Hs Hno. apply is_strong_tick_spec in Hs.
  unfold hand_of, next. rewrite Hs.
  destruct (hits !! S i) as [l'|] eqn:Hl'; simpl; [|done].
  case_bool_decide as Hd; [|done]. destruct Hno. by exists l'.
Qed.

Lemma hand_of_weak :
  ¬ strong_beat t → hand_of left_track right_track t next old = left_track.
Proof.
  intros Hw. unfold hand_of.
  destruct (is_strong_tick t) eqn:Hs; [|done].
  by apply is_strong_tick_spec in Hs.
Qed.
End hand_of_cases.

(** C2, as the code has it.  For the hit at position [i] of the
    chronological hit sequence: the event keeps its message and tick; on a
    strong beat whose next hit is exactly 24 ticks later it is moved to
    [right_track]; on a strong beat without such a successor it keeps the
    track it had; off the strong beats it is moved to [left_track], whatever
    its neighbours are. *)
Theorem assign_hands_for_note_routes (events_by_tick : EventTable) notes
    left_track right_track i l :
  note_hits events_by_tick notes !! i = Some l →
  ∃ e e',
    event_at events_by_tick l = Some e ∧ is_hit notes (msg e) = true ∧
    event_at (assign_hands_for_note events_by_tick notes left_track right_track) l
    = Some e' ∧
    msg e' = msg e ∧ tick e' = tick e ∧
    (strong_beat l.1 → next_hit_is_sixteenth (note_hits events_by_tick notes) i l.1 →
       track e' = right_track) ∧
    (strong_beat l.1 → ¬ next_hit_is_sixteenth (note_hits events_by_tick notes) i l.1 →
       track e' = track e) ∧
    (¬ strong_beat l.1 → track e' = left_track).
Proof.
  intros Hi.
  destruct (proj1 (elem_of_note_hits events_by_tick notes l)) as (e & Hat & Hh).
  { by eapply list_elem_of_lookup_2. }
  exists e; eexists. split; [done|]. split; [done|]. split.
  { unfold assign_hands_for_note.
    rewrite (assign_loop_hit _ _ _ _ i) by (done || apply NoDup_note_hits).
    rewrite Hat. reflexivity. }
  simpl. repeat split.
  - apply hand_of_sixteenth.
  - apply hand_of_strong_alone.
  - apply hand_of_weak.
Qed.

Lemma assign_hands_for_note_routes_witness :
  ∃ e', event_at (assign_hands_for_note two_hits_table [38] 5 6) (0, 0%nat) = Some e' ∧
        track e' = 6.
Proof.
  destruct (assign_hands_for_note_routes two_hits_table [38] 5 6 0 (0, 0%nat) eq_refl)
    as (e & e' & _ & _ & Hat & _ & _ & Hr & _).
  exists e'. split; [done|]. apply Hr.
  - by left.
  - exists (24, 0%nat). by split.
Defined.

(** C2, as worded, fails: with two hits a sixteenth apart, the strong-beat
    hit goes to track 6 and the weak-beat hit to track 5, so no single
    off-hand track receives both. *)
Lemma assign_hands_for_note_two_tracks :
  (∃ e0 e1,
     event_at (assign_hands_for_note two_hits_table [38] 5 6) (0, 0%nat) = Some e0 ∧
     event_at (assign_hands_for_note two_hits_table [38] 5 6) (24, 0%nat) = Some e1 ∧
     track e0 = 6 ∧ track e1 = 5) ∧
  ¬ ∃ off_hand dominant_hand,
      routes_with_roles two_hits_table [38] 5 6 off_hand dominant_hand.
Proof.
  split.
  { by exists (mkEvent 0 6 (NoteOn 9 38 100 0)), (mkEvent 24 5 (NoteOn 9 38 100 24)). }
  intros (off_hand & dominant_hand & H).
  destruct (H 0%nat (0, 0%nat) (mkEvent 0 6 (NoteOn 9 38 100 0)) eq_refl eq_refl)
    as (H0 & _ & _).
  destruct (H 1%nat (24, 0%nat) (mkEvent 24 5 (NoteOn 9 38 100 24)) eq_refl eq_refl)
    as (_ & _ & H1).
  assert (off_hand = 6) as ->.
  { symmetry. apply H0; [by left|]. exists (24, 0%nat). by split. }
  assert (6 = 5) by (symmetry; apply H1; unfold strong_beat; simpl; intros [?|?]; done).
  done.
Qed.

(** ** detect_flam *)

Section flam.
Variables from_note from_vel to_note left_track right_track : Z.

Local Abbreviation matches e := (flam_match from_note from_vel (msg e)).

Lemma flam_match_note_on m :
  flam_match from_note from_vel m = true ↔
  msg_type m = note_on ∧ msg_note m = from_note ∧ msg_velocity m = from_vel.
Proof.
  unfold flam_match. rewrite !andb_true_iff, !bool_decide_eq_true. tauto.
Qed.

Lemma flam_copy m :
  msg_type m = note_on →
  copy_velocity 100 (copy_note to_note m)
  = NoteOn (msg_channel m) to_note 100 (msg_time m).
Proof. by destruct m. Qed.

(** The loop rewrites the matching events where they stand and collects
    one duplicate per matching event, in order. *)
Lemma flam_loop_eq t events :
  flam_loop from_note from_vel to_note left_track right_track t events
  = ((λ e, if matches e then flam_right to_note right_track e else e) <$> events,
     flam_left to_note left_track t <$> filter (λ e, matches e = true) events).
Proof.
  induction events as [|e events IH]; [done|].
  simpl. rewrite IH. rewrite filter_cons.
  destruct (matches e) eqn:Hm.
  - rewrite decide_True by done.
    apply flam_match_note_on in Hm as (Hty & _ & _).
    rewrite flam_copy by done. done.
  - rewrite decide_False by congruence. done.
Qed.

Lemma flam_tick_eq t events :
  flam_tick from_note from_vel to_note left_track right_track t events
  = ((λ e, if matches e then flam_right to_note right_track e else e) <$> events)
    ++ (flam_left to_note left_track t <$> filter (λ e, matches e = true) events).
Proof.
  unfold flam_tick. rewrite flam_loop_eq.
  destruct (_ <$> filter _ _); [by rewrite app_nil_r | done].
Qed.

Lemma lookup_detect_flam (events_by_tick : EventTable) t :
  detect_flam events_by_tick from_note from_vel to_note left_track right_track !! t
  = flam_tick from_note from_vel to_note left_track right_track t
    <$> events_by_tick !! t.
Proof.
  unfold detect_flam. rewrite map_lookup_imap.
  by destruct (events_by_tick !! t).
Qed.
End flam.

Lemma ticks_agree_stored (events_by_tick : EventTable) t e :
  ticks_agree events_by_tick → stored events_by_tick t e → tick e = t.
Proof.
  intros Hag (events & Hev & Hin). apply list_elem_of_lookup in Hin as [j Hj].
  apply (Hag (t, j) e). apply event_at_Some. by exists events.
Qed.

Lemma ticks_agree_alt (events_by_tick : EventTable) :
  ticks_agree events_by_tick ↔
  map_Forall (λ t events, Forall (λ e, tick e = t) events) events_by_tick.
Proof.
  split.
  - intros Hag t events Hev. apply Forall_forall. intros e He.
    apply (ticks_agree_stored events_by_tick); [done|]. by exists events.
  - intros Hall [t j] e Hat. apply event_at_Some in Hat as (events & Hev & He).
    simpl in *. specialize (Hall t events Hev).
    rewrite Forall_forall in Hall. apply Hall. by eapply list_elem_of_lookup_2.
Qed.

(** C4. For a [to_note] that is a MIDI note number (0..127, what [copy]
    accepts): under a tick whose events are [events], [detect_flam] leaves
    the list of the events rewritten in place followed by one duplicate per
    matching event, so the tick grows by one event per match.  A matching
    note-on is replaced where it stands by a note-on on [right_track] with
    note [to_note] and velocity 100, its duplicate is on [left_track], and
    the two differ in the track only; an event that does not match both the
    note and the velocity is unchanged. *)
Theorem detect_flam_expands (events_by_tick : EventTable)
    from_note from_vel to_note left_track right_track t events :
  0 ≤ to_note ≤ 127 →
  ticks_agree events_by_tick →
  events_by_tick !! t = Some events →
  let matching e := flam_match from_note from_vel (msg e) = true in
  let dups := flam_left to_note left_track t <$> filter matching events in
  ∃ events',
    detect_flam events_by_tick from_note from_vel to_note left_track right_track !! t
    = Some (events' ++ dups) ∧
    length events' = length events ∧
    length (events' ++ dups) = (length events + length (filter matching events))%nat ∧
    ∀ i e, events !! i = Some e →
      (matching e →
         ∃ e1 e2, events' !! i = Some e1 ∧ e2 ∈ dups ∧
           track e1 = right_track ∧ track e2 = left_track ∧
           msg e1 = NoteOn (msg_channel (msg e)) to_note 100 (msg_time (msg e)) ∧
           msg e2 = msg e1 ∧ tick e1 = t ∧ tick e2 = t ∧
           e2 = with_track left_track e1) ∧
      (¬ matching e → events' !! i = Some e).
Proof.
  intros _ Hag Hev matching dups.
  exists ((λ e, if flam_match from_note from_vel (msg e)
                then flam_right to_note right_track e else e) <$> events).
  split; [|split; [|split]].
  - rewrite lookup_detect_flam, Hev. simpl. f_equal. apply flam_tick_eq.
  - apply length_fmap.
  - unfold dups. by rewrite length_app, !length_fmap.
  - intros i e Hi.
    assert (tick e = t) as Htk.
    { apply (ticks_agree_stored events_by_tick); [done|].
      exists events. split; [done|]. by eapply list_elem_of_lookup_2. }
    split.
    + intros Hm. exists (flam_right to_note right_track e), (flam_left to_note left_track t e).
      split; [|split].
      * rewrite list_lookup_fmap, Hi. simpl. by rewrite Hm.
      * unfold dups. apply list_elem_of_fmap_2, list_elem_of_filter.
        split; [done|]. by eapply list_elem_of_lookup_2.
      * unfold flam_right, flam_left, with_track. simpl. by rewrite Htk.
    + intros Hm. rewrite list_lookup_fmap, Hi. simpl.
      destruct (flam_match from_note from_vel (msg e)) eqn:E; [by destruct Hm | done].
Qed.

Lemma detect_flam_expands_witness :
  detect_flam flam_table 38 127 38 5 6 !! 24
  = Some [mkEvent 24 6 (NoteOn 9 38 100 24); mkEvent 24 5 (NoteOn 9 38 90 0);
          mkEvent 24 5 (NoteOn 9 38 100 24)].
Proof.
  assert (Hag : ticks_agree flam_table).
  { apply ticks_agree_alt. apply (bool_decide_unpack _). by vm_compute. }
  destruct (detect_flam_expands flam_table 38 127 38 5 6 24 _ ltac:(lia) Hag eq_refl)
    as (events' & Hl & Hlen & _ & Hev).
  rewrite Hl. f_equal.
  destruct (Hev 0%nat _ eq_refl) as [H0 _].
  destruct (H0 eq_refl) as (e1 & e2 & He1 & _ & Htr & _ & Hmsg & _ & Htk & _).
  destruct (Hev 1%nat _ eq_refl) as [_ H1]. specialize (H1 ltac:(done)).
  destruct events' as [|x [|y [|]]]; try done.
  simpl in He1, H1. simplify_eq. destruct e1; simpl in *. by subst.
Defined.

(** ** replace_composite_notes *)

Lemma select_from_ext keep idx idx' i l :
  (∀ j, (i ≤ j)%nat → j ∈ idx ↔ j ∈ idx') →
  select_from keep idx i l = select_from keep idx' i l.
Proof.
  revert i. induction l as [|e l IH]; intros i Hext; [done|]. simpl.
  rewrite (IH (S i)) by (intros; apply Hext; lia).
  assert (bool_decide (i ∈ idx) = bool_decide (i ∈ idx')) as ->; [|done].
  apply bool_decide_ext, Hext. lia.
Qed.

Lemma select_from_indices p keep i l :
  select_from keep (indices_from p i l) i l = filter (λ e, p e = keep) l.
Proof.
  revert i. induction l as [|e l IH]; intros i; [done|].
  rewrite filter_cons. simpl.
  assert (select_from keep (if p e then i :: indices_from p (S i) l
                            else indices_from p (S i) l) (S i) l
          = filter (λ e, p e = keep) l) as ->.
  { rewrite <- (IH (S i)). apply select_from_ext. intros j Hj.
    destruct (p e); [|done]. rewrite elem_of_cons. split; [|auto].
    intros [->|?]; [lia|done]. }
  assert (bool_decide (i ∈ (if p e then i :: indices_from p (S i) l
                           else indices_from p (S i) l)) = p e) as ->.
  { destruct (p e).
    - apply bool_decide_eq_true_2. by left.
    - apply bool_decide_eq_false_2. rewrite elem_of_indices_from. lia. }
  by destruct (decide (p e = keep)); case_bool_decide.
Qed.

Lemma length_indices_from p i l :
  length (indices_from p i l) = length (filter (λ e, p e = true) l).
Proof.
  revert i. induction l as [|e l IH]; intros i; [done|].
  simpl. destruct (p e) eqn:Hp; simpl.
  - by rewrite filter_cons_True, IH.
  - rewrite filter_cons_False, IH; [done | congruence].
Qed.

(** The body of the loop in closed form: the rule fires when the number
    of note-ons whose note is in the match set equals the size of the set.
    It then puts the unmatched note-ons first, then the replacement, then
    the other events. *)
Lemma composite_events_eq match_notes replace_with events :
  let note_ons := filter (λ e, msg_type (msg e) = note_on) events in
  let other_events := filter (λ e, msg_type (msg e) ≠ note_on) events in
  let matched := filter (λ e, in_match match_notes e = true) note_ons in
  composite_events match_notes replace_with events
  = if bool_decide (length matched = size match_notes) then
      base_event ← min_by_note matched;
      Ok (filter (λ e, in_match match_notes e = false) note_ons
          ++ [with_msg (copy_note replace_with (msg base_event)) base_event]
          ++ other_events)
    else Ok events.
Proof.
  intros note_ons other_events matched. unfold composite_events, found_indices_from.
  fold note_ons other_events.
  rewrite length_indices_from, !select_from_indices. done.
Qed.

Lemma min_by_note_elem l e : min_by_note l = Ok e → e ∈ l.
Proof.
  destruct l as [|e0 rest]; [done|]. simpl. intros [= <-].
  assert (∀ best, foldl (λ best e, if bool_decide (msg_note (msg e) < msg_note (msg best))
                                   then e else best) best rest ∈ best :: rest) as H.
  { induction rest as [|x rest IH]; intros best; simpl; [by left|].
    case_bool_decide.
    - right. apply IH.
    - specialize (IH best). apply elem_of_cons in IH as [->|?]; [by left|].
      by do 2 right. }
  apply H.
Qed.

Lemma min_by_note_Ok l : l ≠ [] → ∃ e, min_by_note l = Ok e.
Proof. destruct l; [done|]. simpl. eauto. Qed.

(** The base event has the smallest note among the matched events. *)
Lemma min_by_note_least l e :
  min_by_note l = Ok e → ∀ x, x ∈ l → msg_note (msg e) ≤ msg_note (msg x).
Proof.
  destruct l as [|e0 rest]; [done|]. simpl. intros [= <-].
  assert (∀ best x, x ∈ best :: rest →
            msg_note (msg (foldl (λ best e,
                if bool_decide (msg_note (msg e) < msg_note (msg best))
                then e else best) best rest)) ≤ msg_note (msg x)) as H.
  { induction rest as [|y rest IH]; intros best x Hx; simpl.
    - apply list_elem_of_singleton in Hx as ->. lia.
    - apply elem_of_cons in Hx as [->|Hx].
      + case_bool_decide.
        * etrans; [apply (IH y y); by left|]. lia.
        * apply IH. by left.
      + apply elem_of_cons in Hx as [->|Hx].
        * case_bool_decide.
          -- apply IH. by left.
          -- etrans; [apply (IH best best); by left|]. lia.
        * case_bool_decide; apply IH; by right. }
  apply H.
Qed.

(** With a non-empty match set [min()] is never called on an empty
    sequence. *)
Lemma composite_events_Ok match_notes replace_with events :
  match_notes ≠ ∅ → ∃ events', composite_events match_notes replace_with events = Ok events'.
Proof.
  intros Hne. rewrite composite_events_eq. simpl. case_bool_decide as Hlen; [|eauto].
  destruct (min_by_note_Ok
              (filter (λ e, in_match match_notes e = true)
                      (filter (λ e, msg_type (msg e) = note_on) events)))
    as [base Hbase].
  { intros Hnil. rewrite Hnil in Hlen. simpl in Hlen.
    symmetry in Hlen. by apply size_empty_iff, leibniz_equiv in Hlen. }
  rewrite Hbase. simpl. eauto.
Qed.

(** Every event the loop body leaves comes from an event of the tick. *)
Lemma composite_events_derives match_notes replace_with events events' t :
  composite_events match_notes replace_with events = Ok events' →
  ∀ e', e' ∈ events' → ∃ e, e ∈ events ∧ derives t e e'.
Proof.
  rewrite composite_events_eq. simpl. case_bool_decide.
  - destruct (min_by_note _) as [base|] eqn:Hbase; [|done]. simpl. intros [= <-] e'.
    rewrite elem_of_app, elem_of_cons, !list_elem_of_filter.
    intros [(_ & _ & He)|[->|(_ & He)]].
    + exists e'. split; [done|]. split; auto.
    + apply min_by_note_elem in Hbase.
      rewrite !list_elem_of_filter in Hbase. destruct Hbase as (_ & _ & Hin).
      exists base. split; [done|]. split; [|by left]. simpl. apply msg_type_copy_note.
    + exists e'. split; [done|]. split; auto.
  - intros [= <-] e' He'. exists e'. split; [done|]. split; auto.
Qed.

Section composite_fold.
Variables (match_notes : gset Z) (replace_with : Z).

Local Abbreviation step := (composite_step match_notes replace_with).
Local Abbreviation body := (composite_events match_notes replace_with).

Lemma composite_fold_Err items err : foldl step (Err err) items = Err err.
Proof. induction items as [|item items IH]; [done|]. simpl. apply IH. Qed.

Lemma composite_fold_Ok items (acc tbl' : EventTable) :
  NoDup items.*1 →
  foldl step (Ok acc) items = Ok tbl' →
  (∀ t events, (t, events) ∈ items →
     ∃ events', body events = Ok events' ∧ tbl' !! t = Some events') ∧
  (∀ t, t ∉ items.*1 → tbl' !! t = acc !! t).
Proof.
  revert acc. induction items as [|[t0 events0] items IH]; intros acc Hnd Hfold.
  { simpl in Hfold. injection Hfold as ->. split; [by intros ?? ?%elem_of_nil | done]. }
  rewrite fmap_cons in Hnd. apply NoDup_cons in Hnd as [Hnin Hnd].
  simpl in Hfold.
  destruct (body events0) as [events0'|err] eqn:Hbody; simpl in Hfold.
  2: { by rewrite composite_fold_Err in Hfold. }
  destruct (IH _ Hnd Hfold) as [Hin Hout]. split.
  - intros t events [[= -> ->]|Hel]%elem_of_cons; [|by apply Hin].
    exists events0'. split; [done|]. by rewrite Hout, lookup_insert_eq.
  - intros t Ht. rewrite fmap_cons in Ht. apply not_elem_of_cons in Ht as [Hne Ht].
    rewrite Hout by done. by apply lookup_insert_ne.
Qed.

Lemma composite_fold_total items (acc : EventTable) :
  (∀ t events, (t, events) ∈ items → ∃ events', body events = Ok events') →
  ∃ tbl', foldl step (Ok acc) items = Ok tbl'.
Proof.
  revert acc. induction items as [|[t0 events0] items IH]; intros acc Hall.
  { by exists acc. }
  destruct (Hall t0 events0) as [events0' Hbody]; [by left|].
  simpl. rewrite Hbody. simpl.
  apply IH. intros t events Hel. apply (Hall t events). by right.
Qed.

(** When the pass returns, every tick holds what the loop body made of
    its events, and no tick is added or lost. *)
Lemma replace_composite_notes_lookup (events_by_tick tbl' : EventTable) t :
  replace_composite_notes events_by_tick match_notes replace_with = Ok tbl' →
  match events_by_tick !! t with
  | Some events => ∃ events', body events = Ok events' ∧ tbl' !! t = Some events'
  | None => tbl' !! t = None
  end.
Proof.
  intros Hrun.
  destruct (composite_fold_Ok _ _ _ (NoDup_fst_map_to_list events_by_tick) Hrun)
    as [Hin Hout].
  destruct (events_by_tick !! t) as [events|] eqn:Ht.
  - apply Hin. by apply elem_of_map_to_list.
  - rewrite Hout; [done|]. rewrite list_elem_of_fmap. intros ([t' events] & -> & Hel).
    apply elem_of_map_to_list in Hel. simpl in Ht. congruence.
Qed.

(** With a non-empty match set the loop never stops on [min()]. *)
Lemma replace_composite_notes_total (events_by_tick : EventTable) :
  match_notes ≠ ∅ →
  ∃ tbl', replace_composite_notes events_by_tick match_notes replace_with = Ok tbl'.
Proof.
  intros Hne. apply composite_fold_total. intros t events _.
  by apply composite_events_Ok.
Qed.

Lemma replace_composite_notes_derives (events_by_tick tbl' : EventTable) :
  replace_composite_notes events_by_tick match_notes replace_with = Ok tbl' →
  pass_derives events_by_tick tbl'.
Proof.
  intros Hrun t e' (events' & Hev' & He').
  pose proof (replace_composite_notes_lookup _ _ t Hrun) as Hl.
  destruct (events_by_tick !! t) as [events|] eqn:Ht; [|congruence].
  destruct Hl as (events'' & Hbody & Hl). simplify_eq.
  destruct (composite_events_derives _ _ _ _ t Hbody e' He') as (e & He & Hd).
  exists e. split; [|done]. by exists events.
Qed.
End composite_fold.

(** C1, the firing condition on the code.  With match set {110, 98}: a tick
    holding note 110 twice and no note 98 is rewritten to a single note 48
    (the rule fires although a member of the match set is absent), and a
    tick holding 110 once and 98 twice is left as it is (the rule does not
    fire although every member is present). *)
Theorem replace_composite_notes_counts_matches :
  (read_midi_events doubled_tom_mid = Ok doubled_tom_table ∧
   ¬ note_on_present (doubled_tom_table !!! 0) 98 ∧
   replace_composite_notes doubled_tom_table {[110; 98]} 48
   = Ok {[ 0 := [mkEvent 0 0 (NoteOn 9 48 100 0)] ]}) ∧
  (note_on_present (doubled_hat_table !!! 0) 110 ∧
   note_on_present (doubled_hat_table !!! 0) 98 ∧
   replace_composite_notes doubled_hat_table {[110; 98]} 48 = Ok doubled_hat_table).
Proof.
  split; [split; [|split]|split; [|split]].
  - by vm_compute.
  - intros (e & He & _ & Hn). revert He Hn.
    change (doubled_tom_table !!! 0)
      with [mkEvent 0 0 (NoteOn 9 110 100 0); mkEvent 0 1 (NoteOn 9 110 90 0)].
    rewrite !elem_of_cons, elem_of_nil. intros [->|[->|[]]]; simpl; lia.
  - by vm_compute.
  - exists (mkEvent 0 0 (NoteOn 9 110 100 0)). split; [by left | done].
  - exists (mkEvent 0 0 (NoteOn 9 98 100 0)). split; [by right; left | done].
  - by vm_compute.
Qed.

(** ** Events stored under a key *)

Lemma stored_event_at (events_by_tick : EventTable) t e :
  stored events_by_tick t e ↔ ∃ j, event_at events_by_tick (t, j) = Some e.
Proof.
  split.
  - intros (events & Hev & [j Hj]%list_elem_of_lookup). exists j.
    apply event_at_Some. by exists events.
  - intros [j (events & Hev & Hj)%event_at_Some]. exists events.
    split; [done|]. by eapply list_elem_of_lookup_2.
Qed.

Lemma no_note_off_alt (events_by_tick : EventTable) :
  no_note_off events_by_tick ↔
  ∀ t e, stored events_by_tick t e → msg_type (msg e) ≠ note_off.
Proof.
  split.
  - intros Hno t e [j Hj]%stored_event_at. by apply (Hno (t, j)).
  - intros Hno [t j] e Hat. apply (Hno t). apply stored_event_at. by exists j.
Qed.

Lemma ticks_agree_alt' (events_by_tick : EventTable) :
  ticks_agree events_by_tick ↔ ∀ t e, stored events_by_tick t e → tick e = t.
Proof.
  split.
  - intros Hag t e. by apply ticks_agree_stored.
  - intros Hag [t j] e Hat. apply (Hag t). apply stored_event_at. by exists j.
Qed.

Lemma pass_derives_no_note_off (tbl tbl' : EventTable) :
  pass_derives tbl tbl' → no_note_off tbl → no_note_off tbl'.
Proof.
  rewrite !no_note_off_alt. intros Hd Hno t e' Hst.
  destruct (Hd t e' Hst) as (e & He & Hty & _). rewrite Hty. by apply (Hno t).
Qed.

Lemma pass_derives_ticks_agree (tbl tbl' : EventTable) :
  pass_derives tbl tbl' → ticks_agree tbl → ticks_agree tbl'.
Proof.
  rewrite !ticks_agree_alt'. intros Hd Hag t e' Hst.
  destruct (Hd t e' Hst) as (e & He & _ & [Htk|Htk]); [|done].
  rewrite Htk. by apply Hag.
Qed.

(** A pass that rewrites every event on its own. *)
Lemma fmap_pass_derives (f : Event → Event) (events_by_tick : EventTable) :
  (∀ e, msg_type (msg (f e)) = msg_type (msg e) ∧ tick (f e) = tick e) →
  pass_derives events_by_tick ((λ events : list Event, f <$> events) <$> events_by_tick).
Proof.
  intros Hf t e' (events' & Hev' & He').
  rewrite lookup_fmap in Hev'.
  destruct (events_by_tick !! t) as [events|] eqn:Ht; [|done].
  simpl in Hev'. injection Hev' as <-.
  apply list_elem_of_fmap in He' as (e & -> & He).
  exists e. split; [by exists events|]. destruct (Hf e). split; auto.
Qed.

Lemma replace_single_note_derives (events_by_tick : EventTable) from_note to_note :
  pass_derives events_by_tick (replace_single_note events_by_tick from_note to_note).
Proof.
  apply fmap_pass_derives. intros e. unfold single_note_event.
  destruct (_ && _); [|done]. simpl. by rewrite msg_type_copy_note.
Qed.

Lemma replace_track_derives (events_by_tick : EventTable) from_track to_track :
  pass_derives events_by_tick (replace_track events_by_tick from_track to_track).
Proof. apply fmap_pass_derives. intros e. by case_bool_decide. Qed.

Lemma replace_note_track_derives (events_by_tick : EventTable) notes to_track :
  pass_derives events_by_tick (replace_note_track events_by_tick notes to_track).
Proof. apply fmap_pass_derives. intros e. by destruct (is_hit _ _). Qed.

Lemma replace_note_if_velocity_derives (events_by_tick : EventTable)
    from_note from_vel to_note :
  pass_derives events_by_tick
    (replace_note_if_velocity events_by_tick from_note from_vel to_note).
Proof.
  apply fmap_pass_derives. intros e. destruct (flam_match _ _ _); [|done].
  simpl. by rewrite msg_type_copy_velocity, msg_type_copy_note.
Qed.

Lemma replace_velocity_if_velocity_derives (events_by_tick : EventTable) from_vel to_vel :
  pass_derives events_by_tick
    (replace_velocity_if_velocity events_by_tick from_vel to_vel).
Proof.
  apply fmap_pass_derives. intros e. destruct (_ && _); [|done].
  simpl. by rewrite msg_type_copy_velocity.
Qed.

Lemma detect_flam_derives (events_by_tick : EventTable)
    from_note from_vel to_note left_track right_track :
  pass_derives events_by_tick
    (detect_flam events_by_tick from_note from_vel to_note left_track right_track).
Proof.
  intros t e' (events' & Hev' & He'). rewrite lookup_detect_flam in Hev'.
  destruct (events_by_tick !! t) as [events|] eqn:Ht; [|done].
  simpl in Hev'. injection Hev' as <-. rewrite flam_tick_eq in He'.
  apply elem_of_app in He' as [He'|He'].
  - apply list_elem_of_fmap in He' as (e & -> & He).
    exists e. split; [by exists events|].
    destruct (flam_match from_note from_vel (msg e)) eqn:Hm; [|by split; auto].
    apply flam_match_note_on in Hm as (Hty & _). split; [by rewrite Hty | by left].
  - apply list_elem_of_fmap in He' as (e & -> & He).
    apply list_elem_of_filter in He as [Hm He].
    exists e. split; [by exists events|].
    apply flam_match_note_on in Hm as (Hty & _). split; [by rewrite Hty | by right].
Qed.

Lemma assign_loop_event_at hits left_track right_track (events_by_tick : EventTable) l e' :
  event_at (assign_loop hits left_track right_track events_by_tick) l = Some e' →
  ∃ e, event_at events_by_tick l = Some e ∧ msg e' = msg e ∧ tick e' = tick e.
Proof.
  revert events_by_tick. induction hits as [|hit rest IH]; intros tbl Hat.
  { by exists e'. }
  simpl in Hat. apply IH in Hat as (e & Hat & Hm & Ht).
  destruct (_ || _); [|by exists e].
  rewrite event_at_set_track in Hat.
  destruct (event_at tbl l) as [e0|]; [|done]. simpl in Hat. injection Hat as <-.
  exists e0. split; [done|]. rewrite Hm, Ht. by destruct (decide _).
Qed.

Lemma assign_hands_for_note_derives (events_by_tick : EventTable) notes
    left_track right_track :
  pass_derives events_by_tick
    (assign_hands_for_note events_by_tick notes left_track right_track).
Proof.
  intros t e' [j Hj]%stored_event_at.
  apply assign_loop_event_at in Hj as (e & Hat & Hm & Ht).
  exists e. split; [apply stored_event_at; by exists j|].
  split; [by rewrite Hm | by left].
Qed.

(** ** read_midi_events *)

Lemma stored_append_event (events_by_tick : EventTable) e t x :
  stored (append_event events_by_tick e) t x ↔
  stored events_by_tick t x ∨ (t = tick e ∧ x = e).
Proof.
  unfold stored, append_event. rewrite lookup_total_alt.
  destruct (decide (t = tick e)) as [->|Hne].
  - rewrite lookup_insert_eq. split.
    + intros (events & [= <-] & Hx). apply elem_of_app in Hx as [Hx|Hx].
      * left. destruct (events_by_tick !! tick e) as [events|]; simpl in Hx.
        -- by exists events.
        -- by apply elem_of_nil in Hx.
      * right. by apply list_elem_of_singleton in Hx.
    + intros [(events & Hev & Hx)|[_ ->]]; eexists; (split; [done|]).
      * rewrite Hev. simpl. apply elem_of_app. by left.
      * apply elem_of_app. right. by left.
  - rewrite lookup_insert_ne by done. split; [by left|].
    by intros [?|[? _]].
Qed.

Lemma abs_time_of_0 m msgs : abs_time_of (m :: msgs) 0 = msg_time m.
Proof. unfold abs_time_of. simpl. lia. Qed.

Lemma abs_time_of_S m msgs i :
  abs_time_of (m :: msgs) (S i) = msg_time m + abs_time_of msgs i.
Proof. done. Qed.

(** Closes the goals of the form: lookups from the context, and ticks
    equal up to arithmetic. *)
Ltac tick_arith :=
  split_and!; try done; try lia; f_equal; lia.

Lemma stored_read_track k a msgs (events_by_tick : EventTable) t x :
  stored (read_track k a msgs events_by_tick) t x ↔
  stored events_by_tick t x ∨
  ∃ i m, msgs !! i = Some m ∧ msg_type m ≠ note_off ∧
         t = a + abs_time_of msgs i ∧
         x = {| tick := a + abs_time_of msgs i; track := k; msg := m |}.
Proof.
  revert a events_by_tick. induction msgs as [|m msgs IH]; intros a tbl.
  { simpl. split; [by left|]. by intros [?|(i & ? & ? & _)]. }
  simpl. unfold is_note_off. case_bool_decide as Hoff; rewrite IH; clear IH.
  - split.
    + intros [?|(i & m' & Hi & Hno & -> & ->)]; [by left|]. right.
      exists (S i), m'. rewrite abs_time_of_S.
      tick_arith.
    + intros [?|(i & m' & Hi & Hno & -> & ->)]; [by left|]. right.
      destruct i as [|i]; simpl in Hi; [congruence|].
      exists i, m'. rewrite abs_time_of_S.
      tick_arith.
  - rewrite stored_append_event. simpl. split.
    + intros [[?|[-> ->]]|(i & m' & Hi & Hno & -> & ->)]; [by left| |]; right.
      * exists 0%nat, m. by rewrite abs_time_of_0.
      * exists (S i), m'. rewrite abs_time_of_S.
        tick_arith.
    + intros [?|(i & m' & Hi & Hno & -> & ->)]; [by left; left|].
      destruct i as [|i]; simpl in Hi.
      * injection Hi as <-. left; right. by rewrite abs_time_of_0.
      * right. exists i, m'. rewrite abs_time_of_S.
        tick_arith.
Qed.

Lemma stored_read_tracks k0 trks (events_by_tick : EventTable) t x :
  stored (read_tracks k0 trks events_by_tick) t x ↔
  stored events_by_tick t x ∨
  ∃ (k i : nat) trk m,
    trks !! k = Some trk ∧ trk !! i = Some m ∧ msg_type m ≠ note_off ∧
    t = abs_time_of trk i ∧
    x = {| tick := abs_time_of trk i; track := k0 + Z.of_nat k; msg := m |}.
Proof.
  revert k0 events_by_tick. induction trks as [|trk trks IH]; intros k0 tbl.
  { simpl. split; [by left|]. by intros [?|(k & ? & ? & ? & ? & _)]. }
  simpl. rewrite IH, stored_read_track. clear IH. split.
  - intros [[?|(i & m & Hi & Hno & -> & ->)]|(k & i & trk' & m & Hk & Hi & Hno & -> & ->)];
      [by left|right..].
    + exists 0%nat, i, trk, m. tick_arith.
    + exists (S k), i, trk', m. tick_arith.
  - intros [?|(k & i & trk' & m & Hk & Hi & Hno & -> & ->)]; [by left; left|].
    destruct k as [|k]; simpl in Hk.
    + injection Hk as <-. left; right. exists i, m.
      tick_arith.
    + right. exists k, i, trk', m. tick_arith.
Qed.

Lemma stored_empty t x : ¬ stored (∅ : EventTable) t x.
Proof. by intros (events & Hev & _). Qed.

(** The table ingestion returns holds exactly the events made of the
    messages that are not note-offs, each under its absolute tick. *)
Lemma read_midi_events_stored mid (events_by_tick : EventTable) t x :
  read_midi_events mid = Ok events_by_tick →
  stored events_by_tick t x ↔ ingested mid x ∧ t = tick x.
Proof.
  unfold read_midi_events. case_bool_decide; [done|]. intros [= <-].
  rewrite stored_read_tracks. unfold ingested. split.
  - intros [[]%stored_empty|(k & i & trk & m & Hk & Hi & Hno & -> & ->)].
    split; [|done]. exists k, i, trk, m. tick_arith.
  - intros [(k & i & trk & m & Hk & Hi & Hno & ->) ->]. right.
    exists k, i, trk, m. tick_arith.
Qed.

Lemma read_midi_events_no_note_off mid (events_by_tick : EventTable) :
  read_midi_events mid = Ok events_by_tick → no_note_off events_by_tick.
Proof.
  intros Hread. apply no_note_off_alt. intros t e Hst.
  apply (read_midi_events_stored _ _ _ _ Hread) in Hst
    as [(k & i & trk & m & _ & _ & Hno & ->) _].
  done.
Qed.

Lemma read_midi_events_ticks_agree mid (events_by_tick : EventTable) :
  read_midi_events mid = Ok events_by_tick → ticks_agree events_by_tick.
Proof.
  intros Hread. apply ticks_agree_alt'. intros t e Hst.
  by apply (read_midi_events_stored _ _ _ _ Hread) in Hst as [_ ->].
Qed.

(** C6. Ingestion fails exactly when the declared ticks-per-beat differs
    from [EXPECTED_TPB] (96); the failure is the resolution error, and with
    it [main] ends with that error: no pass runs and nothing is written.
    When the resolution is right nothing else is checked: the table holds
    one event for each message that is not a note-off, carrying the message
    itself, whatever its note number. *)
Theorem read_midi_events_resolution mid :
  ((∃ err, read_midi_events mid = Err err) ↔ ticks_per_beat mid ≠ EXPECTED_TPB) ∧
  (ticks_per_beat mid ≠ EXPECTED_TPB →
     read_midi_events mid = Err (ValueError_tpb (ticks_per_beat mid) 96) ∧
     main mid = Err (ValueError_tpb (ticks_per_beat mid) 96)) ∧
  (ticks_per_beat mid = EXPECTED_TPB →
     ∃ events_by_tick : EventTable,
       read_midi_events mid = Ok events_by_tick ∧
       ∀ t x, stored events_by_tick t x ↔ ingested mid x ∧ t = tick x).
Proof.
  assert (Hbad : ticks_per_beat mid ≠ EXPECTED_TPB →
                 read_midi_events mid = Err (ValueError_tpb (ticks_per_beat mid) 96)).
  { intros Hne. unfold read_midi_events. by rewrite bool_decide_eq_true_2. }
  assert (Hgood : ticks_per_beat mid = EXPECTED_TPB →
                  read_midi_events mid = Ok (read_tracks 0 (tracks mid) ∅)).
  { intros Heq. unfold read_midi_events. rewrite bool_decide_eq_false_2; [done|].
    by intros ?. }
  split; [|split].
  - split.
    + intros [err Herr] . intros Heq. rewrite Hgood in Herr; done.
    + intros Hne. eexists. by apply Hbad.
  - intros Hne. split; [by apply Hbad|]. unfold main. by rewrite Hbad.
  - intros Heq. eexists. split; [by apply Hgood|].
    intros t x. apply read_midi_events_stored. by apply Hgood.
Qed.

Lemma read_midi_events_resolution_witness :
  main mid_480 = Err (ValueError_tpb 480 96) ∧
  ∃ events_by_tick : EventTable,
    read_midi_events mid_96 = Ok events_by_tick ∧
    stored events_by_tick 0 (mkEvent 0 0 (NoteOn 9 300 100 0)).
Proof.
  split.
  - destruct (read_midi_events_resolution mid_480) as (_ & Hbad & _).
    apply Hbad. simpl. unfold EXPECTED_TPB. lia.
  - destruct (read_midi_events_resolution mid_96) as (_ & _ & Hgood).
    destruct (Hgood eq_refl) as (events_by_tick & Hread & Hst).
    exists events_by_tick. split; [done|]. apply Hst. split; [|done].
    exists 0%nat, 0%nat, [NoteOn 9 300 100 0; NoteOff 9 300 0 10], (NoteOn 9 300 100 0).
    by split_and!.
Defined.

(** C7. The table ingestion returns holds no note-off, and every rewrite
    pass keeps it that way: given a table without note-offs, the table each
    pass returns has none (the composite rule returns a table whenever its
    match set is not empty and its replacement is a MIDI note number,
    0..127). *)
Theorem note_off_never_stored :
  (∀ mid (events_by_tick : EventTable),
     read_midi_events mid = Ok events_by_tick → no_note_off events_by_tick) ∧
  (∀ events_by_tick : EventTable, no_note_off events_by_tick →
     (∀ match_notes replace_with tbl',
        replace_composite_notes events_by_tick match_notes replace_with = Ok tbl' →
        no_note_off tbl') ∧
     (∀ match_notes replace_with, match_notes ≠ ∅ → 0 ≤ replace_with ≤ 127 →
        ∃ tbl', replace_composite_notes events_by_tick match_notes replace_with = Ok tbl' ∧
                no_note_off tbl') ∧
     (∀ from_note to_note,
        no_note_off (replace_single_note events_by_tick from_note to_note)) ∧
     (∀ from_note from_vel to_note,
        no_note_off (replace_note_if_velocity events_by_tick from_note from_vel to_note)) ∧
     (∀ from_vel to_vel,
        no_note_off (replace_velocity_if_velocity events_by_tick from_vel to_vel)) ∧
     (∀ notes to_track,
        no_note_off (replace_note_track events_by_tick notes to_track)) ∧
     (∀ notes left_track right_track,
        no_note_off (assign_hands_for_note events_by_tick notes left_track right_track)) ∧
     (∀ from_note from_vel to_note left_track right_track,
        no_note_off (detect_flam events_by_tick from_note from_vel to_note
                                 left_track right_track)) ∧
     (∀ from_track to_track,
        no_note_off (replace_track events_by_tick from_track to_track))).
Proof.
  split; [apply read_midi_events_no_note_off|].
  intros tbl Hno. split_and!; intros.
  - eapply pass_derives_no_note_off; [by eapply replace_composite_notes_derives|done].
  - destruct (replace_composite_notes_total match_notes replace_with tbl) as [tbl' Hrun];
      [done|].
    exists tbl'. split; [done|].
    eapply pass_derives_no_note_off; [by eapply replace_composite_notes_derives|done].
  - eapply pass_derives_no_note_off; [apply replace_single_note_derives|done].
  - eapply pass_derives_no_note_off; [apply replace_note_if_velocity_derives|done].
  - eapply pass_derives_no_note_off; [apply replace_velocity_if_velocity_derives|done].
  - eapply pass_derives_no_note_off; [apply replace_note_track_derives|done].
  - eapply pass_derives_no_note_off; [apply assign_hands_for_note_derives|done].
  - eapply pass_derives_no_note_off; [apply detect_flam_derives|done].
  - eapply pass_derives_no_note_off; [apply replace_track_derives|done].
Qed.

Lemma note_off_never_stored_witness :
  ∃ events_by_tick : EventTable,
    read_midi_events mid_96 = Ok events_by_tick ∧
    stored events_by_tick 24 (mkEvent 24 1 (NoteOn 9 38 100 24)) ∧
    no_note_off events_by_tick ∧
    no_note_off (detect_flam events_by_tick 38 127 38 5 6).
Proof.
  destruct note_off_never_stored as [Hread Hpass].
  eexists. split; [reflexivity|].
  pose proof (Hread mid_96 _ eq_refl) as Hno.
  split; [|split; [done|by apply Hpass]].
  eexists. split; [reflexivity|]. by left.
Defined.

(** ** write_midi *)

Lemma elem_of_events_in_tick_order (events_by_tick : EventTable) e :
  e ∈ events_in_tick_order events_by_tick ↔ ∃ t, stored events_by_tick t e.
Proof.
  unfold events_in_tick_order. rewrite list_elem_of_bind. split.
  - intros (t & He & Ht). apply elem_of_sorted_keys in Ht as [events Hev].
    rewrite lookup_total_alt, Hev in He. exists t. by exists events.
  - intros (t & events & Hev & He). exists t.
    rewrite lookup_total_alt, Hev, elem_of_sorted_keys. eauto.
Qed.

Section group_by_track.
Local Abbreviation file_event :=
  (λ (track_events : gmap Z (list Event)) event,
     <[track event := (track_events !!! track event) ++ [event]]> track_events).

Lemma group_fold_lookup_total events (acc : gmap Z (list Event)) tr :
  foldl file_event acc events !!! tr
  = acc !!! tr ++ filter (λ e, track e = tr) events.
Proof.
  revert acc. induction events as [|e events IH]; intros acc.
  { by rewrite app_nil_r. }
  simpl. rewrite IH. destruct (decide (track e = tr)) as [<-|Hne].
  - rewrite lookup_total_insert_eq, filter_cons_True by done.
    by rewrite <- app_assoc.
  - by rewrite lookup_total_insert_ne, filter_cons_False.
Qed.

Lemma group_fold_is_Some events (acc : gmap Z (list Event)) tr :
  is_Some (foldl file_event acc events !! tr) ↔
  is_Some (acc !! tr) ∨ ∃ e, e ∈ events ∧ track e = tr.
Proof.
  revert acc. induction events as [|e events IH]; intros acc.
  { simpl. split; [by left|]. by intros [?|(? & ?%elem_of_nil & _)]. }
  simpl. rewrite IH, lookup_insert_is_Some. split.
  - intros [[<-|[_ ?]]|(e' & He' & <-)].
    + right. exists e. split; [by left|done].
    + by left.
    + right. exists e'. split; [by right|done].
  - intros [?|(e' & [->|He']%elem_of_cons & <-)].
    + left. destruct (decide (track e = tr)); [by left | by right].
    + left. by left.
    + right. by exists e'.
Qed.

Lemma group_by_track_lookup_total events tr :
  group_by_track events !!! tr = filter (λ e, track e = tr) events.
Proof. unfold group_by_track. by rewrite group_fold_lookup_total. Qed.

Lemma group_by_track_is_Some events tr :
  is_Some (group_by_track events !! tr) ↔ ∃ e, e ∈ events ∧ track e = tr.
Proof.
  unfold group_by_track. rewrite group_fold_is_Some, lookup_empty.
  split; [|by right]. by intros [[]%is_Some_None|?].
Qed.
End group_by_track.

Lemma msg_time_copy_time δ m : msg_time (copy_time δ m) = δ.
Proof. by destruct m. Qed.

Lemma copy_time_copy_time δ δ' m : copy_time δ (copy_time δ' m) = copy_time δ m.
Proof. by destruct m. Qed.

(** Reading a delta-encoded track back gives the absolute ticks. *)
Lemma elem_of_abs_times_encode_1 a flat_events t m :
  (t, m) ∈ flat_events →
  ∃ δ, (t, copy_time δ m) ∈ abs_times a (delta_encode a flat_events).
Proof.
  revert a. induction flat_events as [|[t0 m0] flat IH]; intros a Hin.
  { by apply elem_of_nil in Hin. }
  simpl. rewrite msg_time_copy_time. replace (a + (t0 - a)) with t0 by lia.
  apply elem_of_cons in Hin as [[= -> ->]|Hin].
  - exists (t0 - a). by left.
  - destruct (IH t0 Hin) as [δ Hδ]. exists δ. by right.
Qed.

Lemma elem_of_abs_times_encode_2 a flat_events t m' :
  (t, m') ∈ abs_times a (delta_encode a flat_events) →
  ∃ m δ, (t, m) ∈ flat_events ∧ m' = copy_time δ m.
Proof.
  revert a. induction flat_events as [|[t0 m0] flat IH]; intros a Hin.
  { by apply elem_of_nil in Hin. }
  simpl in Hin. rewrite msg_time_copy_time in Hin.
  replace (a + (t0 - a)) with t0 in Hin by lia.
  apply elem_of_cons in Hin as [[= -> ->]|Hin].
  - exists m0, (t0 - a). split; [by left|done].
  - destruct (IH t0 Hin) as (m & δ & Hm & ->). exists m, δ. split; [by right|done].
Qed.

Lemma elem_of_flat_events_of events t m :
  (t, m) ∈ flat_events_of events ↔
  ∃ e, e ∈ events ∧
       ((t = tick e ∧ m = msg e) ∨
        (msg_type (msg e) = note_on ∧ t = tick e + DEFAULT_DURATION ∧
         m = synthetic_note_off (msg e))).
Proof.
  unfold flat_events_of. rewrite list_elem_of_bind. split.
  - intros (e & Hin & He). exists e. split; [done|].
    apply elem_of_cons in Hin as [[= -> ->]|Hin]; [by left|].
    case_bool_decide; [|by apply elem_of_nil in Hin].
    apply list_elem_of_singleton in Hin as [= -> ->]. by right.
  - intros (e & He & [[-> ->]|(Hty & -> & ->)]); exists e; (split; [|done]).
    + by left.
    + right. rewrite bool_decide_eq_true_2 by done. by left.
Qed.

(** The messages of one synthesised track, with their absolute ticks. *)
Lemma elem_of_synth_track_1 events e :
  e ∈ events →
  (∃ δ, (tick e, copy_time δ (msg e)) ∈ abs_times 0 (synth_track events)) ∧
  (msg_type (msg e) = note_on →
   ∃ δ, (tick e + DEFAULT_DURATION,
         NoteOff (msg_channel (msg e)) (msg_note (msg e)) 0 δ)
        ∈ abs_times 0 (synth_track events)).
Proof.
  intros He. unfold synth_track. split.
  - apply elem_of_abs_times_encode_1, elem_of_sort_by, elem_of_flat_events_of.
    exists e. split; [done | by left].
  - intros Hty.
    destruct (elem_of_abs_times_encode_1 0 (sort_by fst (flat_events_of events))
                (tick e + DEFAULT_DURATION) (synthetic_note_off (msg e))) as [δ Hδ].
    { apply elem_of_sort_by, elem_of_flat_events_of. exists e. split; [done | by right]. }
    by exists δ.
Qed.

Lemma elem_of_synth_track_2 events a m :
  (a, m) ∈ abs_times 0 (synth_track events) → msg_type m = note_off →
  ∃ e, e ∈ events ∧
       (msg_type (msg e) = note_off ∨
        (msg_type (msg e) = note_on ∧ a = tick e + DEFAULT_DURATION ∧
         msg_channel m = msg_channel (msg e) ∧ msg_note m = msg_note (msg e) ∧
         msg_velocity m = 0)).
Proof.
  intros Hin Hoff. unfold synth_track in Hin.
  apply elem_of_abs_times_encode_2 in Hin as (m0 & δ & Hin & ->).
  apply elem_of_sort_by, elem_of_flat_events_of in Hin
    as (e & He & [[-> ->]|(Hty & -> & ->)]); exists e; (split; [done|]).
  - left. by rewrite msg_type_copy_time in Hoff.
  - right. by split_and!.
Qed.

Lemma no_note_off_Forall (events_by_tick : EventTable) :
  no_note_off events_by_tick ↔
  map_Forall (λ _ events, Forall (λ e, msg_type (msg e) ≠ note_off) events)
             events_by_tick.
Proof.
  rewrite no_note_off_alt. split.
  - intros Hno t events Hev. apply Forall_forall. intros e He.
    apply (Hno t). by exists events.
  - intros Hall t e (events & Hev & He). specialize (Hall t events Hev).
    rewrite Forall_forall in Hall. by apply Hall.
Qed.

Lemma synth_tracks_lookup (events_by_tick : EventTable) in_track (k : nat) trk :
  synth_tracks events_by_tick in_track !! k = Some trk ↔
  ∃ id, emitted_ids events_by_tick in_track !! k = Some id ∧
        trk = synth_track (filter (λ e, track e = id)
                                  (events_in_tick_order events_by_tick)).
Proof.
  unfold synth_tracks, emitted_ids. rewrite list_lookup_fmap.
  destruct (emitted_tracks _ _ !! k) as [id|]; simpl.
  - rewrite group_by_track_lookup_total. split.
    + intros [= <-]. by exists id.
    + by intros (? & [= <-] & ->).
  - split; [done | by intros (? & ? & _)].
Qed.

Lemma elem_of_emitted_ids (events_by_tick : EventTable) in_track id :
  id ∈ emitted_ids events_by_tick in_track ↔
  (∃ t e, stored events_by_tick t e ∧ track e = id) ∧
  ¬ (in_track >= 0 ∧ id ≠ in_track).
Proof.
  unfold emitted_ids, emitted_tracks.
  rewrite list_elem_of_filter, elem_of_sorted_keys, group_by_track_is_Some.
  split.
  - intros [Hf (e & [t Ht]%elem_of_events_in_tick_order & <-)]. split; [|done].
    by exists t, e.
  - intros [(t & e & Hst & <-) Hf]. split; [done|]. exists e. split; [|done].
    apply elem_of_events_in_tick_order. by exists t.
Qed.

(** Counting the messages of a type through the synthesis of a track. *)
Lemma count_delta_encode ty a flat_events :
  count_type ty (delta_encode a flat_events)
  = length (filter (λ p, msg_type p.2 = ty) flat_events).
Proof.
  unfold count_type. revert a.
  induction flat_events as [|[t m] flat IH]; intros a; [done|]. simpl.
  rewrite !filter_cons, msg_type_copy_time. simpl.
  destruct (decide (msg_type m = ty)); simpl; by rewrite IH.
Qed.

Lemma count_flat_events_of ty events :
  length (filter (λ p : Z * Message, msg_type p.2 = ty) (flat_events_of events))
  = (length (filter (λ e, msg_type (msg e) = ty) events)
     + (if decide (ty = note_off)
        then length (filter (λ e, msg_type (msg e) = note_on) events) else 0))%nat.
Proof.
  unfold flat_events_of.
  induction events as [|e events IH]; [by destruct (decide _)|].
  rewrite bind_cons, filter_app, length_app, IH. clear IH.
  rewrite !(filter_cons _ e). simpl.
  destruct (decide (msg_type (msg e) = note_on)) as [Hon|Hon].
  - rewrite bool_decide_eq_true_2 by done. rewrite !filter_cons. simpl.
    repeat case_decide; simpl; try lia; congruence.
  - rewrite bool_decide_eq_false_2 by done. rewrite !filter_cons. simpl.
    repeat case_decide; simpl; try lia; congruence.
Qed.

Lemma count_synth_track events :
  (∀ e, e ∈ events → msg_type (msg e) ≠ note_off) →
  count_type note_off (synth_track events) = count_type note_on (synth_track events).
Proof.
  intros Hno. unfold synth_track. rewrite !count_delta_encode.
  rewrite !(sort_by_Permutation fst (flat_events_of events)).
  rewrite !count_flat_events_of.
  rewrite decide_True by done. rewrite decide_False by done.
  assert (filter (λ e, msg_type (msg e) = note_off) events = []) as ->; [|simpl; lia].
  induction events as [|e events IH]; [done|].
  rewrite filter_cons_False by (apply Hno; by left).
  apply IH. intros e' He'. apply Hno. by right.
Qed.

Lemma count_type_rename ty name trk trk' :
  ty ≠ track_name → rename_first name trk = Some trk' →
  count_type ty trk' = count_type ty trk.
Proof.
  intros Hty. unfold count_type. revert trk'.
  induction trk as [|m trk IH]; intros trk' Hren; [done|].
  assert (Hother : ∀ rest', rename_first name trk = Some rest' →
            length (filter (λ m, msg_type m = ty) (m :: rest'))
            = length (filter (λ m, msg_type m = ty) (m :: trk))).
  { intros rest' Hr. rewrite !filter_cons.
    destruct (decide (msg_type m = ty)); simpl; by rewrite (IH _ Hr). }
  destruct m; simpl in Hren;
    try (destruct (rename_first name trk) as [rest'|] eqn:Hr; [|done];
         simpl in Hren; injection Hren as <-; by apply Hother).
  injection Hren as <-. rewrite !filter_cons. simpl.
  by rewrite !decide_False by congruence.
Qed.

Lemma count_type_set_name ty name trk :
  ty ≠ track_name → count_type ty (set_name name trk) = count_type ty trk.
Proof.
  intros Hty. unfold set_name.
  destruct (rename_first name trk) as [trk'|] eqn:Hren.
  - by apply count_type_rename with name.
  - unfold count_type. rewrite filter_cons. simpl.
    by rewrite decide_False by congruence.
Qed.

(** The tracks built by the loop over the track indices pair the
    note-offs as required. *)
Lemma synth_tracks_paired (events_by_tick : EventTable) in_track :
  in_track < 0 → no_note_off events_by_tick →
  note_offs_paired events_by_tick (emitted_ids events_by_tick in_track)
                   (synth_tracks events_by_tick in_track).
Proof.
  intros Hall Hno. split; [|split].
  - intros k trk (id & _ & ->)%synth_tracks_lookup.
    apply count_synth_track. intros e [_ [t Hst]%elem_of_events_in_tick_order]%list_elem_of_filter.
    rewrite no_note_off_alt in Hno. by apply (Hno t).
  - intros t e Hst Hty.
    assert (track e ∈ emitted_ids events_by_tick in_track) as [k Hk]%list_elem_of_lookup.
    { apply elem_of_emitted_ids. split; [by exists t, e | lia]. }
    assert (e ∈ filter (λ e', track e' = track e)
                       (events_in_tick_order events_by_tick)) as He.
    { apply list_elem_of_filter. split; [done|].
      apply elem_of_events_in_tick_order. by exists t. }
    destruct (elem_of_synth_track_1 _ _ He) as [[δ Hon] Hoff].
    destruct (Hoff Hty) as [δ' Hoff'].
    exists k, (synth_track (filter (λ e', track e' = track e)
                                   (events_in_tick_order events_by_tick))), δ, δ'.
    split; [done|]. split; [|done].
    apply synth_tracks_lookup. by exists (track e).
  - intros k trk a m Hk Hin Hoff.
    apply synth_tracks_lookup in Hk as (id & Hid & ->).
    apply elem_of_synth_track_2 in Hin as (e & He & Hcase); [|done].
    apply list_elem_of_filter in He as [<- [t Hst]%elem_of_events_in_tick_order].
    destruct Hcase as [Hbad|(Hty & -> & Hc & Hn & Hv)].
    { rewrite no_note_off_alt in Hno. by destruct (Hno t e Hst). }
    exists t, e. by split_and!.
Qed.

(** Naming a track touches [track_name] messages only. *)
Lemma elem_of_abs_times_rename name trk trk' a0 a m :
  rename_first name trk = Some trk' → msg_type m ≠ track_name →
  (a, m) ∈ abs_times a0 trk' ↔ (a, m) ∈ abs_times a0 trk.
Proof.
  intros Hren Hty. revert a0 trk' Hren.
  induction trk as [|m0 trk IH]; intros a0 trk' Hren; [done|].
  assert (Hother : ∀ rest', rename_first name trk = Some rest' →
            (a, m) ∈ abs_times a0 (m0 :: rest') ↔ (a, m) ∈ abs_times a0 (m0 :: trk)).
  { intros rest' Hr. simpl. rewrite !elem_of_cons. by rewrite (IH _ _ Hr). }
  destruct m0; simpl in Hren;
    try (destruct (rename_first name trk) as [rest'|] eqn:Hr; [|done];
         simpl in Hren; injection Hren as <-; by apply Hother).
  injection Hren as <-. simpl. rewrite !elem_of_cons.
  split; (intros [[= _ ->]|?]; [done | by right]).
Qed.

Lemma elem_of_abs_times_set_name name trk a m :
  msg_type m ≠ track_name →
  (a, m) ∈ abs_times 0 (set_name name trk) ↔ (a, m) ∈ abs_times 0 trk.
Proof.
  intros Hty. unfold set_name.
  destruct (rename_first name trk) as [trk'|] eqn:Hren.
  - by apply elem_of_abs_times_rename with name.
  - simpl. rewrite elem_of_cons. split; [|by right].
    by intros [[= _ ->]|?].
Qed.

(** The container is written exactly when the loop built two tracks or
    more; the first two are then named. *)
Lemma write_midi_Ok_inv (events_by_tick : EventTable) in_track out :
  write_midi events_by_tick in_track = Ok out ↔
  ∃ t0 t1 rest,
    synth_tracks events_by_tick in_track = t0 :: t1 :: rest ∧
    out = {| ticks_per_beat := EXPECTED_TPB;
             tracks := set_name "RH" t0 :: set_name "LH" t1 :: rest |}.
Proof.
  unfold write_midi, index.
  destruct (synth_tracks events_by_tick in_track) as [|t0 [|t1 rest]]; simpl.
  - split; [done | by intros (? & ? & ? & ? & _)].
  - split; [done | by intros (? & ? & ? & ? & _)].
  - split.
    + intros [= <-]. by exists t0, t1, rest.
    + by intros (? & ? & ? & [= <- <- <-] & ->).
Qed.

Lemma write_midi_Err (events_by_tick : EventTable) in_track :
  (length (synth_tracks events_by_tick in_track) < 2)%nat →
  write_midi events_by_tick in_track = Err IndexError.
Proof.
  unfold write_midi, index.
  destruct (synth_tracks events_by_tick in_track) as [|t0 [|t1 rest]]; simpl;
    [done..|lia].
Qed.

Lemma note_offs_paired_named (events_by_tick : EventTable) ids t0 t1 rest :
  note_offs_paired events_by_tick ids (t0 :: t1 :: rest) →
  note_offs_paired events_by_tick ids (set_name "RH" t0 :: set_name "LH" t1 :: rest).
Proof.
  assert (Hrel : ∀ (k : nat) trk',
            (set_name "RH" t0 :: set_name "LH" t1 :: rest) !! k = Some trk' →
            ∃ trk, (t0 :: t1 :: rest) !! k = Some trk ∧
                   ∀ a m, msg_type m ≠ track_name →
                          (a, m) ∈ abs_times 0 trk' ↔ (a, m) ∈ abs_times 0 trk).
  { intros [|[|k]] trk'; simpl.
    - intros [= <-]. exists t0. split; [done|]. intros. by apply elem_of_abs_times_set_name.
    - intros [= <-]. exists t1. split; [done|]. intros. by apply elem_of_abs_times_set_name.
    - intros Hk. by exists trk'. }
  assert (Hrel' : ∀ (k : nat) trk,
            (t0 :: t1 :: rest) !! k = Some trk →
            ∃ trk', (set_name "RH" t0 :: set_name "LH" t1 :: rest) !! k = Some trk' ∧
                   ∀ a m, msg_type m ≠ track_name →
                          (a, m) ∈ abs_times 0 trk' ↔ (a, m) ∈ abs_times 0 trk).
  { intros [|[|k]] trk; simpl.
    - intros [= <-]. eexists. split; [done|]. intros. by apply elem_of_abs_times_set_name.
    - intros [= <-]. eexists. split; [done|]. intros. by apply elem_of_abs_times_set_name.
    - intros Hk. by exists trk. }
  intros (Hcount & Hon & Hoff). split; [|split].
  - intros [|[|k]] trk'; simpl.
    + intros [= <-]. rewrite !count_type_set_name by done. by apply (Hcount 0%nat).
    + intros [= <-]. rewrite !count_type_set_name by done. by apply (Hcount 1%nat).
    + intros Hk. by apply (Hcount (S (S k))).
  - intros t e Hst Hty. destruct (Hon t e Hst Hty) as (k & trk & δ & δ' & Hid & Hk & H1 & H2).
    destruct (Hrel' k trk Hk) as (trk' & Hk' & Hsame).
    exists k, trk', δ, δ'. split; [done|]. split; [done|]. split.
    + apply Hsame; [|done]. rewrite msg_type_copy_time, Hty. done.
    + by apply Hsame.
  - intros k trk' a m Hk' Hin Hty.
    destruct (Hrel k trk' Hk') as (trk & Hk & Hsame).
    apply (Hoff k trk a m Hk); [|done]. apply Hsame; [|done]. by rewrite Hty.
Qed.

(** C5. When all tracks are written ([in_track] negative, as in [main])
    and the table holds no note-off: in the tracks the loop builds, and in
    the tracks of the container [write_midi] returns, every note-on of the
    table has in its own track a note-off exactly [DEFAULT_DURATION] ticks
    later with the same note and channel and velocity 0, and every
    note-off of the output is one of these.  The container is produced
    whenever the table has events on two tracks or more. *)
Theorem write_midi_pairs_note_offs (events_by_tick : EventTable) in_track :
  in_track < 0 → no_note_off events_by_tick →
  let ids := emitted_ids events_by_tick in_track in
  note_offs_paired events_by_tick ids (synth_tracks events_by_tick in_track) ∧
  (∀ out, write_midi events_by_tick in_track = Ok out →
          note_offs_paired events_by_tick ids (tracks out)) ∧
  ((2 ≤ length ids)%nat → ∃ out, write_midi events_by_tick in_track = Ok out).
Proof.
  intros Hall Hno ids.
  pose proof (synth_tracks_paired events_by_tick in_track Hall Hno) as Hpaired.
  split; [done|]. split.
  - intros out (t0 & t1 & rest & Hbuilt & ->)%write_midi_Ok_inv. simpl.
    fold ids in Hpaired. rewrite Hbuilt in Hpaired.
    by apply note_offs_paired_named.
  - intros Hlen.
    assert (length (synth_tracks events_by_tick in_track) = length ids) as Hl.
    { unfold synth_tracks. apply length_fmap. }
    destruct (synth_tracks events_by_tick in_track) as [|t0 [|t1 rest]] eqn:Hbuilt;
      simpl in Hl; [lia..|].
    eexists. apply write_midi_Ok_inv. by exists t0, t1, rest.
Qed.

Lemma write_midi_pairs_note_offs_witness :
  ∃ out,
    write_midi final_table (-1) = Ok out ∧
    note_offs_paired final_table [2; 5] (tracks out) ∧
    tracks out = [[TrackName "RH" 0; NoteOn 9 36 100 0;
                   Other "control_change" [7; 100] 4; NoteOff 9 36 0 4];
                  [TrackName "LH" 0; NoteOn 9 38 100 0; NoteOff 9 38 0 8]].
Proof.
  assert (Hno : no_note_off final_table).
  { apply no_note_off_Forall. apply (bool_decide_unpack _). by vm_compute. }
  destruct (write_midi_pairs_note_offs final_table (-1) ltac:(lia) Hno)
    as (_ & Hout & _).
  eexists. split; [reflexivity|]. split; [|reflexivity].
  by apply (Hout _ eq_refl).
Defined.

(** C3, on the code.  With an empty table the loop builds no track, and
    [new_mid.tracks[0].name = 'RH'] raises IndexError before anything is
    saved; the same happens for a container without tracks run through
    [main], and whenever fewer than two tracks are built. *)
Theorem write_midi_empty_table_raises :
  (∀ in_track, synth_tracks ∅ in_track = [] ∧ write_midi ∅ in_track = Err IndexError) ∧
  main {| ticks_per_beat := 96; tracks := [] |} = Err IndexError ∧
  (∀ (events_by_tick : EventTable) in_track,
     (length (synth_tracks events_by_tick in_track) < 2)%nat →
     write_midi events_by_tick in_track = Err IndexError).
Proof.
  split; [|split].
  - intros in_track.
    assert (synth_tracks ∅ in_track = []) as Hnil by done.
    split; [done|]. apply write_midi_Err. rewrite Hnil. simpl. lia.
  - by vm_compute.
  - apply write_midi_Err.
Qed.

Lemma write_midi_empty_table_raises_witness :
  write_midi kick_table (-1) = Err IndexError.
Proof.
  destruct write_midi_empty_table_raises as (_ & _ & Hfew).
  apply Hfew. vm_compute. lia.
Defined.

(** ** The pipeline of [main] *)

Lemma bind_Ok_inv {A B} (r : result A) (f : A → result B) b :
  r ≫= f = Ok b → ∃ a, r = Ok a ∧ f a = Ok b.
Proof. destruct r as [a|]; [|discriminate]. intros H. by exists a. Qed.

Lemma Ok_inj {A} (a b : A) : Ok a = Ok b → a = b.
Proof. congruence. Qed.

Lemma pass_derives_trans (tbl1 tbl2 tbl3 : EventTable) :
  pass_derives tbl1 tbl2 → pass_derives tbl2 tbl3 → pass_derives tbl1 tbl3.
Proof.
  intros H12 H23 t e3 Hst3.
  destruct (H23 t e3 Hst3) as (e2 & Hst2 & Hty2 & Htk2).
  destruct (H12 t e2 Hst2) as (e1 & Hst1 & Hty1 & Htk1).
  exists e1. split; [done|]. split; [congruence|].
  destruct Htk2 as [-> | ->]; [done | by right].
Qed.

(** Peels the last pass off a chain of passes. *)
Ltac peel_pass :=
  eapply pass_derives_trans;
  [| first [ apply replace_track_derives
           | apply detect_flam_derives
           | apply assign_hands_for_note_derives
           | apply replace_note_track_derives
           | apply replace_velocity_if_velocity_derives
           | apply replace_note_if_velocity_derives
           | apply replace_single_note_derives ] ].

(** Every event the rule script leaves comes from an ingested one. *)
Lemma transform_derives (events tbl' : EventTable) :
  transform events = Ok tbl' → pass_derives events tbl'.
Proof.
  unfold transform. intros Hrun.
  apply bind_Ok_inv in Hrun as (e1 & H1 & Hrun).
  apply bind_Ok_inv in Hrun as (e2 & H2 & Hrun).
  apply bind_Ok_inv in Hrun as (e3 & H3 & Hrun).
  apply Ok_inj in Hrun. cbv zeta in Hrun. subst tbl'.
  apply replace_composite_notes_derives in H1, H2, H3.
  do 16 peel_pass.
  exact (pass_derives_trans _ _ _ (pass_derives_trans _ _ _ H1 H2) H3).
Qed.

Lemma match_set_nonempty (a b : Z) : ({[a; b]} : gset Z) ≠ ∅.
Proof. intros H. apply (not_elem_of_empty (C:=gset Z) a). rewrite <- H. set_solver. Qed.

(** The composite rules of [main] have non-empty match sets: the rule
    script always returns a table. *)
Lemma transform_total (events : EventTable) : ∃ tbl', transform events = Ok tbl'.
Proof.
  unfold transform.
  destruct (replace_composite_notes_total {[110; 98]} 48 events (match_set_nonempty _ _))
    as [e1 H1].
  destruct (replace_composite_notes_total {[111; 99]} 45 e1 (match_set_nonempty _ _))
    as [e2 H2].
  destruct (replace_composite_notes_total {[112; 100]} 43 e2 (match_set_nonempty _ _))
    as [e3 H3].
  eexists. rewrite H1. cbn [mbind result_bind]. rewrite H2. cbn [mbind result_bind].
  rewrite H3. reflexivity.
Qed.

(** The table that reaches [write_midi] in [main] holds no note-off and
    files every event under its tick. *)
Lemma main_table_invariants mid (events tbl' : EventTable) :
  read_midi_events mid = Ok events → transform events = Ok tbl' →
  no_note_off tbl' ∧ ticks_agree tbl'.
Proof.
  intros Hread Hd%transform_derives. split.
  - eapply pass_derives_no_note_off; [exact Hd|]. by eapply read_midi_events_no_note_off.
  - eapply pass_derives_ticks_agree; [exact Hd|]. by eapply read_midi_events_ticks_agree.
Qed.

(** ** The hit sequence is chronological *)

Lemma sorted_keys_StronglySorted {V} (m : gmap Z V) :
  StronglySorted Z.le (sorted_keys m).
Proof.
  apply Sorted_StronglySorted; [intros x y z; lia|]. apply (sort_by_Sorted id).
Qed.

Lemma same_tick_StronglySorted (t : Z) (idx : list nat) :
  StronglySorted (λ l l' : Loc, l.1 ≤ l'.1) ((λ i, (t, i)) <$> idx).
Proof.
  induction idx as [|i idx IH]; [constructor|].
  rewrite fmap_cons. constructor; [done|].
  apply Forall_forall. intros l (j & -> & _)%list_elem_of_fmap. simpl. lia.
Qed.

(** Hits are listed by ascending tick; hits of one tick keep the order
    of the tick's list. *)
Lemma note_hits_chronological (events_by_tick : EventTable) notes :
  StronglySorted (λ l l' : Loc, l.1 ≤ l'.1) (note_hits events_by_tick notes).
Proof.
  unfold note_hits.
  pose proof (sorted_keys_StronglySorted events_by_tick) as Hs.
  induction Hs as [|t keys Hs IH Hle]; [constructor|].
  rewrite bind_cons. apply StronglySorted_app. split; [|split; [|done]].
  - intros l1 l2 (i & -> & _)%list_elem_of_fmap (t' & Hl2 & Ht')%list_elem_of_bind.
    apply list_elem_of_fmap in Hl2 as (j & -> & _). simpl.
    rewrite Forall_forall in Hle. by apply Hle.
  - apply same_tick_StronglySorted.
Qed.

(** ** When the count test of the composite rule is a coverage test *)

(** If no note number of the match set occurs twice among the note-ons
    of the tick, the rule fires exactly when every member of the match
    set is present. *)
Lemma composite_count_is_coverage (match_notes : gset Z) events :
  let matched := filter (λ e, in_match match_notes e = true)
                        (filter (λ e, msg_type (msg e) = note_on) events) in
  NoDup ((λ e, msg_note (msg e)) <$> matched) →
  length matched = size match_notes ↔
  ∀ n, n ∈ match_notes → note_on_present events n.
Proof.
  intros matched Hnd.
  set (notes := (λ e, msg_note (msg e)) <$> matched) in *.
  assert (Hsub : (list_to_set notes : gset Z) ⊆ match_notes).
  { intros n (e & -> & He)%elem_of_list_to_set%list_elem_of_fmap.
    apply list_elem_of_filter in He as [Hin _].
    unfold in_match in Hin. by apply bool_decide_eq_true in Hin. }
  assert (Hsize : size (list_to_set notes : gset Z) = length matched).
  { rewrite size_list_to_set by done. apply length_fmap. }
  assert (Hpresent : ∀ n, n ∈ (list_to_set notes : gset Z) →
                          note_on_present events n).
  { intros n (e & -> & He)%elem_of_list_to_set%list_elem_of_fmap.
    apply list_elem_of_filter in He as [_ He].
    apply list_elem_of_filter in He as [Hty He]. by exists e. }
  split.
  - intros Hlen n Hn. apply Hpresent.
    rewrite (set_subseteq_size_eq _ _ Hsub); [done|]. lia.
  - intros Hall. rewrite <- Hsize. f_equal.
    apply set_eq. intros n. split; [apply Hsub|]. intros Hn.
    destruct (Hall n Hn) as (e & He & Hty & <-).
    apply elem_of_list_to_set, list_elem_of_fmap. exists e. split; [done|].
    apply list_elem_of_filter. split.
    + unfold in_match. by apply bool_decide_eq_true_2.
    + by apply list_elem_of_filter.
Qed.

(** * Further properties of the passes *)

(** ** Passes that rewrite every event on its own *)

Section pointwise.
Variable f : Event → Event.

Local Abbreviation pass :=
  (λ tbl : EventTable, (λ events : list Event, f <$> events) <$> tbl).

Lemma event_at_pointwise (events_by_tick : EventTable) l :
  event_at (pass events_by_tick) l = f <$> event_at events_by_tick l.
Proof.
  unfold event_at. rewrite lookup_fmap.
  destruct (events_by_tick !! l.1) as [events|]; simpl; [|done].
  by rewrite list_lookup_fmap.
Qed.

Lemma pointwise_idempotent (events_by_tick : EventTable) :
  (∀ e, f (f e) = f e) → pass (pass events_by_tick) = pass events_by_tick.
Proof.
  intros Hidem. rewrite <- map_fmap_compose. apply map_fmap_ext.
  intros t events _. simpl. rewrite <- list_fmap_compose.
  apply list_fmap_ext. intros i e _. simpl. apply Hidem.
Qed.

Lemma pointwise_shape (events_by_tick : EventTable) :
  dom (pass events_by_tick) = dom events_by_tick ∧
  ∀ t, length (pass events_by_tick !!! t) = length (events_by_tick !!! t).
Proof.
  split; [apply dom_fmap_L|]. intros t.
  rewrite !lookup_total_alt, lookup_fmap.
  destruct (events_by_tick !! t); simpl; [apply length_fmap | done].
Qed.
End pointwise.

Lemma replace_note_if_velocity_eq (events_by_tick : EventTable) from_note from_vel to_note :
  replace_note_if_velocity events_by_tick from_note from_vel to_note
  = (λ events : list Event, note_if_velocity_event from_note from_vel to_note <$> events)
    <$> events_by_tick.
Proof. reflexivity. Qed.

Lemma replace_velocity_if_velocity_eq (events_by_tick : EventTable) from_vel to_vel :
  replace_velocity_if_velocity events_by_tick from_vel to_vel
  = (λ events : list Event, velocity_event from_vel to_vel <$> events) <$> events_by_tick.
Proof. reflexivity. Qed.

Lemma replace_track_eq (events_by_tick : EventTable) from_track to_track :
  replace_track events_by_tick from_track to_track
  = (λ events : list Event, track_event from_track to_track <$> events) <$> events_by_tick.
Proof. reflexivity. Qed.

Lemma replace_note_track_eq (events_by_tick : EventTable) notes to_track :
  replace_note_track events_by_tick notes to_track
  = (λ events : list Event, note_track_event notes to_track <$> events) <$> events_by_tick.
Proof. reflexivity. Qed.

(** *** replace_note_if_velocity *)

Lemma note_if_velocity_event_hit from_note from_vel to_note e :
  flam_match from_note from_vel (msg e) = true →
  note_if_velocity_event from_note from_vel to_note e
  = {| tick := tick e; track := track e;
       msg := NoteOn (msg_channel (msg e)) to_note 100 (msg_time (msg e)) |}.
Proof.
  intros Hm. unfold note_if_velocity_event. rewrite Hm.
  apply flam_match_note_on in Hm as (Hty & _).
  unfold with_msg. f_equal. by destruct (msg e).
Qed.

Lemma note_if_velocity_event_idem from_note from_vel to_note e :
  note_if_velocity_event from_note from_vel to_note
    (note_if_velocity_event from_note from_vel to_note e)
  = note_if_velocity_event from_note from_vel to_note e.
Proof.
  destruct (flam_match from_note from_vel (msg e)) eqn:Hm.
  - rewrite (note_if_velocity_event_hit _ _ _ e Hm).
    unfold note_if_velocity_event. simpl.
    destruct (flam_match from_note from_vel (NoteOn _ _ _ _)); reflexivity.
  - unfold note_if_velocity_event. by rewrite !Hm.
Qed.

(** X1. For a [to_note] that is a MIDI note number (0..127, what [copy]
    accepts), the velocity-conditional remap changes exactly the note-ons
    whose note is [from_note] and whose velocity is [from_vel]: such an event
    comes out at the same place with note [to_note], velocity 100 and the
    same channel, delta time, track and tick; every other event comes out
    identical, and no event is added or removed. *)
Theorem replace_note_if_velocity_effect (events_by_tick : EventTable)
    from_note from_vel to_note l :
  0 ≤ to_note ≤ 127 →
  match event_at events_by_tick l with
  | None => event_at (replace_note_if_velocity events_by_tick from_note from_vel to_note) l
            = None
  | Some e =>
      ∃ e', event_at (replace_note_if_velocity events_by_tick from_note from_vel to_note) l
            = Some e' ∧
        (msg_type (msg e) = note_on → msg_note (msg e) = from_note →
         msg_velocity (msg e) = from_vel →
           msg e' = NoteOn (msg_channel (msg e)) to_note 100 (msg_time (msg e)) ∧
           track e' = track e ∧ tick e' = tick e) ∧
        (¬ (msg_type (msg e) = note_on ∧ msg_note (msg e) = from_note ∧
            msg_velocity (msg e) = from_vel) → e' = e)
  end.
Proof.
  intros _. rewrite replace_note_if_velocity_eq, event_at_pointwise.
  destruct (event_at events_by_tick l) as [e|]; [|done]. simpl.
  eexists. split; [done|]. split.
  - intros Hty Hn Hv. rewrite note_if_velocity_event_hit; [done|].
    by apply flam_match_note_on.
  - intros Hno. unfold note_if_velocity_event.
    destruct (flam_match from_note from_vel (msg e)) eqn:Hm; [|done].
    by apply flam_match_note_on in Hm.
Qed.

Lemma replace_note_if_velocity_effect_witness :
  event_at (replace_note_if_velocity velocity_table 49 127 44) (0, 0%nat)
  = Some (mkEvent 0 0 (NoteOn 9 44 100 0)) ∧
  event_at (replace_note_if_velocity velocity_table 49 127 44) (0, 1%nat)
  = Some (mkEvent 0 0 (NoteOn 9 49 50 0)).
Proof.
  pose proof (replace_note_if_velocity_effect velocity_table 49 127 44 (0, 0%nat)
                ltac:(lia)) as H0.
  pose proof (replace_note_if_velocity_effect velocity_table 49 127 44 (0, 1%nat)
                ltac:(lia)) as H1.
  change (event_at velocity_table (0, 0%nat)) with (Some (mkEvent 0 0 (NoteOn 9 49 127 0))) in H0.
  change (event_at velocity_table (0, 1%nat)) with (Some (mkEvent 0 0 (NoteOn 9 49 50 0))) in H1.
  destruct H0 as (e0 & -> & Hhit & _), H1 as (e1 & -> & _ & Hmiss).
  destruct (Hhit eq_refl eq_refl eq_refl) as (Hm & Htr & Htk).
  split.
  - f_equal. destruct e0; simpl in *. by subst.
  - f_equal. apply Hmiss. simpl. intros (_ & _ & ?). lia.
Defined.

(** X2. The velocity-conditional remap is idempotent for every choice of
    its parameters: what it produces (note [to_note] at velocity 100) is
    mapped to itself if it matches again. *)
Theorem replace_note_if_velocity_idempotent (events_by_tick : EventTable)
    from_note from_vel to_note :
  replace_note_if_velocity
    (replace_note_if_velocity events_by_tick from_note from_vel to_note)
    from_note from_vel to_note
  = replace_note_if_velocity events_by_tick from_note from_vel to_note.
Proof.
  rewrite !replace_note_if_velocity_eq. apply pointwise_idempotent.
  apply note_if_velocity_event_idem.
Qed.

(** *** replace_velocity_if_velocity *)

Lemma velocity_event_hit from_vel to_vel e :
  msg_type (msg e) = note_on → msg_velocity (msg e) = from_vel →
  velocity_event from_vel to_vel e
  = {| tick := tick e; track := track e;
       msg := NoteOn (msg_channel (msg e)) (msg_note (msg e)) to_vel (msg_time (msg e)) |}.
Proof.
  intros Hty Hv. unfold velocity_event. rewrite !bool_decide_eq_true_2 by done.
  simpl. unfold with_msg. f_equal. by destruct (msg e).
Qed.

Lemma velocity_event_miss from_vel to_vel e :
  ¬ (msg_type (msg e) = note_on ∧ msg_velocity (msg e) = from_vel) →
  velocity_event from_vel to_vel e = e.
Proof. intros Hno. unfold velocity_event. do 2 case_bool_decide; simpl; tauto. Qed.

Lemma velocity_event_idem from_vel to_vel e :
  velocity_event from_vel to_vel (velocity_event from_vel to_vel e)
  = velocity_event from_vel to_vel e.
Proof.
  destruct (decide (msg_type (msg e) = note_on ∧ msg_velocity (msg e) = from_vel))
    as [[Hty Hv]|Hno].
  - rewrite (velocity_event_hit _ _ e) by done.
    unfold velocity_event. simpl. by case_bool_decide.
  - by rewrite !(velocity_event_miss _ _ e).
Qed.

(** X3. For a [to_vel] that is a MIDI velocity (0..127, what [copy]
    accepts), the velocity-only remap changes exactly the note-ons whose
    velocity is [from_vel], whatever their note: such an event comes out
    at the same place with velocity [to_vel] and the same note, channel,
    delta time, track and tick; every other event comes out identical, and
    no event is added or removed. *)
Theorem replace_velocity_if_velocity_effect (events_by_tick : EventTable) from_vel to_vel l :
  0 ≤ to_vel ≤ 127 →
  match event_at events_by_tick l with
  | None => event_at (replace_velocity_if_velocity events_by_tick from_vel to_vel) l = None
  | Some e =>
      ∃ e', event_at (replace_velocity_if_velocity events_by_tick from_vel to_vel) l
            = Some e' ∧
        (msg_type (msg e) = note_on → msg_velocity (msg e) = from_vel →
           msg e' = NoteOn (msg_channel (msg e)) (msg_note (msg e)) to_vel
                           (msg_time (msg e)) ∧
           track e' = track e ∧ tick e' = tick e) ∧
        (¬ (msg_type (msg e) = note_on ∧ msg_velocity (msg e) = from_vel) → e' = e)
  end.
Proof.
  intros _. rewrite replace_velocity_if_velocity_eq, event_at_pointwise.
  destruct (event_at events_by_tick l) as [e|]; [|done]. simpl.
  eexists. split; [done|]. split.
  - intros Hty Hv. by rewrite velocity_event_hit.
  - apply velocity_event_miss.
Qed.

Lemma replace_velocity_if_velocity_effect_witness :
  event_at (replace_velocity_if_velocity velocity_table 1 20) (0, 2%nat)
  = Some (mkEvent 0 1 (NoteOn 9 38 20 0)).
Proof.
  pose proof (replace_velocity_if_velocity_effect velocity_table 1 20 (0, 2%nat)
                ltac:(lia)) as H.
  change (event_at velocity_table (0, 2%nat)) with (Some (mkEvent 0 1 (NoteOn 9 38 1 0))) in H.
  destruct H as (e' & -> & Hhit & _).
  destruct (Hhit eq_refl eq_refl) as (Hm & Htr & Htk).
  f_equal. destruct e'; simpl in *. by subst.
Defined.

(** X4. The velocity-only remap is idempotent, and when [from_vel] and
    [to_vel] differ no note-on of its result has velocity [from_vel]. *)
Theorem replace_velocity_if_velocity_settles (events_by_tick : EventTable) from_vel to_vel :
  replace_velocity_if_velocity
    (replace_velocity_if_velocity events_by_tick from_vel to_vel) from_vel to_vel
  = replace_velocity_if_velocity events_by_tick from_vel to_vel ∧
  (from_vel ≠ to_vel →
   no_velocity from_vel (replace_velocity_if_velocity events_by_tick from_vel to_vel)).
Proof.
  split.
  - rewrite !replace_velocity_if_velocity_eq. apply pointwise_idempotent.
    apply velocity_event_idem.
  - intros Hne l e'. rewrite replace_velocity_if_velocity_eq, event_at_pointwise.
    destruct (event_at events_by_tick l) as [e|]; [|done]. simpl. intros [= <-].
    destruct (decide (msg_type (msg e) = note_on ∧ msg_velocity (msg e) = from_vel))
      as [[Hty Hv]|Hno].
    + rewrite velocity_event_hit by done. simpl. congruence.
    + rewrite velocity_event_miss by done. tauto.
Qed.

Lemma replace_velocity_if_velocity_settles_witness :
  no_velocity 1 (replace_velocity_if_velocity velocity_table 1 20).
Proof.
  apply (replace_velocity_if_velocity_settles velocity_table 1 20). lia.
Defined.

(** *** replace_track *)

Lemma track_event_idem from_track to_track e :
  track_event from_track to_track (track_event from_track to_track e)
  = track_event from_track to_track e.
Proof.
  unfold track_event. destruct (decide (track e = from_track)) as [H1|H1].
  - rewrite (bool_decide_eq_true_2 _ H1). simpl. by case_bool_decide.
  - rewrite (bool_decide_eq_false_2 _ H1). by rewrite (bool_decide_eq_false_2 _ H1).
Qed.

(** X5. [replace_track] moves the events that are on [from_track] to
    [to_track] and changes nothing else: every event keeps its place, its
    tick and its message, an event on another track keeps its track, and
    no event is added or removed. *)
Theorem replace_track_effect (events_by_tick : EventTable) from_track to_track l :
  match event_at events_by_tick l with
  | None => event_at (replace_track events_by_tick from_track to_track) l = None
  | Some e =>
      ∃ e', event_at (replace_track events_by_tick from_track to_track) l = Some e' ∧
        msg e' = msg e ∧ tick e' = tick e ∧
        track e' = (if decide (track e = from_track) then to_track else track e)
  end.
Proof.
  rewrite replace_track_eq, event_at_pointwise.
  destruct (event_at events_by_tick l) as [e|]; [|done]. simpl.
  eexists. split; [done|]. unfold track_event.
  case_bool_decide; [rewrite decide_True by done | rewrite decide_False by done]; done.
Qed.

(** X6. [replace_track] is idempotent; when [from_track] and [to_track]
    differ its result has no event on [from_track]; and it puts no event on
    a track other than [to_track] that was empty before. *)
Theorem replace_track_settles (events_by_tick : EventTable) from_track to_track :
  replace_track (replace_track events_by_tick from_track to_track) from_track to_track
  = replace_track events_by_tick from_track to_track ∧
  (from_track ≠ to_track →
   no_track from_track (replace_track events_by_tick from_track to_track)) ∧
  (∀ c, c ≠ to_track → no_track c events_by_tick →
        no_track c (replace_track events_by_tick from_track to_track)).
Proof.
  split; [|split].
  - rewrite !replace_track_eq. apply pointwise_idempotent, track_event_idem.
  - intros Hne l e'. rewrite replace_track_eq, event_at_pointwise.
    destruct (event_at events_by_tick l) as [e|]; [|done]. simpl. intros [= <-].
    unfold track_event. case_bool_decide; simpl; congruence.
  - intros c Hc Hno l e'. rewrite replace_track_eq, event_at_pointwise.
    destruct (event_at events_by_tick l) as [e|] eqn:Hat; [|done]. simpl. intros [= <-].
    unfold track_event. case_bool_decide; simpl; [congruence|]. by apply (Hno l).
Qed.

Lemma replace_track_settles_witness :
  no_track 0 (replace_track kick_table 0 2) ∧ no_track 6 (replace_track kick_table 0 2).
Proof.
  destruct (replace_track_settles kick_table 0 2) as (_ & Hclear & Hkeep).
  split; [apply Hclear; lia|]. apply Hkeep; [lia|].
  intros l e (events & Hev & He)%event_at_Some.
  destruct l as [t j]. simpl in *. unfold kick_table in Hev.
  apply lookup_insert_Some in Hev as [[<- <-]|[_ Hev]].
  - destruct j as [|j]; simpl in He; [by injection He as <-|done].
  - apply lookup_singleton_Some in Hev as [<- <-].
    destruct j as [|j]; simpl in He; [by injection He as <-|done].
Defined.

(** *** replace_note_track *)

(** X7. [replace_note_track] moves the note-ons whose note is in [notes]
    to [to_track] and changes nothing else: messages, ticks and places are
    kept, every other event keeps its track, and a second application
    changes nothing. *)
Theorem replace_note_track_effect (events_by_tick : EventTable) notes to_track :
  (∀ l,
     match event_at events_by_tick l with
     | None => event_at (replace_note_track events_by_tick notes to_track) l = None
     | Some e =>
         ∃ e', event_at (replace_note_track events_by_tick notes to_track) l = Some e' ∧
           msg e' = msg e ∧ tick e' = tick e ∧
           track e' = (if is_hit notes (msg e) then to_track else track e)
     end) ∧
  replace_note_track (replace_note_track events_by_tick notes to_track) notes to_track
  = replace_note_track events_by_tick notes to_track.
Proof.
  split.
  - intros l. rewrite replace_note_track_eq, event_at_pointwise.
    destruct (event_at events_by_tick l) as [e|]; [|done]. simpl.
    eexists. split; [done|]. unfold note_track_event.
    by destruct (is_hit notes (msg e)).
  - rewrite !replace_note_track_eq. apply pointwise_idempotent.
    intros e. unfold note_track_event.
    destruct (is_hit notes (msg e)) eqn:Hh; simpl; by rewrite Hh.
Qed.

(** ** Tables that agree on every location *)

Lemma event_at_is_Some_dom (events_by_tick : EventTable) l :
  is_Some (event_at events_by_tick l) → l.1 ∈ dom events_by_tick.
Proof.
  intros [e (events & Hev & _)%event_at_Some]. apply elem_of_dom. eauto.
Qed.

(** Two tables with the same ticks and the same event at every location
    are equal. *)
Lemma table_ext (tbl1 tbl2 : EventTable) :
  dom tbl1 = dom tbl2 → (∀ l, event_at tbl1 l = event_at tbl2 l) → tbl1 = tbl2.
Proof.
  intros Hdom Hat. apply map_eq. intros t.
  destruct (tbl1 !! t) as [l1|] eqn:H1.
  - assert (is_Some (tbl2 !! t)) as [l2 H2].
    { apply elem_of_dom. rewrite <- Hdom. apply elem_of_dom. eauto. }
    rewrite H2. f_equal. apply list_eq. intros j.
    specialize (Hat (t, j)). unfold event_at in Hat. simpl in Hat.
    by rewrite H1, H2 in Hat.
  - symmetry. apply not_elem_of_dom. rewrite <- Hdom. by apply not_elem_of_dom.
Qed.

Lemma sorted_keys_dom {V W} (m1 : gmap Z V) (m2 : gmap Z W) :
  dom m1 = dom m2 → sorted_keys m1 = sorted_keys m2.
Proof.
  intros Hdom.
  apply (StronglySorted_unique Z.le); try apply sorted_keys_StronglySorted.
  apply NoDup_Permutation; try apply NoDup_sorted_keys.
  intros t. rewrite !elem_of_sorted_keys, <- !elem_of_dom. by rewrite Hdom.
Qed.

(** ** assign_hands_for_note: what it keeps *)

Lemma dom_set_track (events_by_tick : EventTable) l tr :
  dom (set_track events_by_tick l tr) = dom events_by_tick.
Proof. apply dom_alter_L. Qed.

Lemma dom_assign_loop hits left_track right_track (events_by_tick : EventTable) :
  dom (assign_loop hits left_track right_track events_by_tick) = dom events_by_tick.
Proof.
  revert events_by_tick. induction hits as [|hit rest IH]; intros tbl; [done|].
  simpl. rewrite IH. destruct (_ || _); [apply dom_set_track | done].
Qed.

(** The loop changes tracks only, and only to one of its two tracks. *)
Lemma assign_loop_tracks_only hits left_track right_track (events_by_tick : EventTable) l :
  ∃ g : Event → Event,
    event_at (assign_loop hits left_track right_track events_by_tick) l
    = g <$> event_at events_by_tick l ∧
    ∀ e, msg (g e) = msg e ∧ tick (g e) = tick e ∧
         (track (g e) = track e ∨ track (g e) = left_track ∨ track (g e) = right_track).
Proof.
  revert events_by_tick. induction hits as [|hit rest IH]; intros tbl.
  { exists id. split; [simpl; by destruct (event_at tbl l)|]. intros e. auto. }
  simpl. destruct (_ || _).
  - match goal with
    | |- context [set_track tbl hit ?tr] =>
        destruct (IH (set_track tbl hit tr)) as (g & Hg & Hkeep);
        exists (λ e, g ((if decide (hit = l) then with_track tr else id) e));
        assert (tr = left_track ∨ tr = right_track) as Htr
          by (destruct (_ && _); auto)
    end.
    split.
    + rewrite Hg, event_at_set_track. by destruct (event_at tbl l).
    + intros e. destruct (decide (hit = l)).
      * match goal with
        | |- context [g (with_track ?tr e)] =>
            destruct (Hkeep (with_track tr e)) as (Hm & Ht & Hc)
        end.
        split; [done|]. split; [done|]. simpl in Hc.
        destruct Htr as [Htr|Htr]; rewrite Htr in *; tauto.
      * apply Hkeep.
  - apply IH.
Qed.

Lemma assign_loop_lookup_total hits left_track right_track (events_by_tick : EventTable) t :
  msg <$> (assign_loop hits left_track right_track events_by_tick !!! t)
  = msg <$> (events_by_tick !!! t).
Proof.
  pose proof (dom_assign_loop hits left_track right_track events_by_tick) as Hdom.
  rewrite !lookup_total_alt.
  destruct (events_by_tick !! t) as [l0|] eqn:H0.
  - assert (is_Some (assign_loop hits left_track right_track events_by_tick !! t))
      as [l1 H1].
    { apply elem_of_dom. rewrite Hdom. apply elem_of_dom. eauto. }
    rewrite H1. simpl. apply list_eq. intros j. rewrite !list_lookup_fmap.
    destruct (assign_loop_tracks_only hits left_track right_track events_by_tick (t, j))
      as (g & Hg & Hkeep).
    unfold event_at in Hg. simpl in Hg. rewrite H0, H1 in Hg. simpl in Hg.
    rewrite Hg. destruct (l0 !! j) as [e|]; [|done]. simpl. f_equal. apply Hkeep.
  - apply not_elem_of_dom in H0. rewrite <- Hdom in H0.
    apply not_elem_of_dom in H0. by rewrite H0.
Qed.

Lemma indices_from_msg p i (l1 l2 : list Event) :
  msg <$> l1 = msg <$> l2 →
  indices_from (λ e, p (msg e)) i l1 = indices_from (λ e, p (msg e)) i l2.
Proof.
  revert i l2. induction l1 as [|e1 l1 IH]; intros i [|e2 l2] Heq; try done.
  injection Heq as Hm Heq. simpl. rewrite Hm, (IH (S i) l2 Heq). done.
Qed.

(** The hits of any note set are the same before and after the pass. *)
Lemma note_hits_assign_loop hits left_track right_track (events_by_tick : EventTable) notes :
  note_hits (assign_loop hits left_track right_track events_by_tick) notes
  = note_hits events_by_tick notes.
Proof.
  unfold note_hits.
  rewrite (sorted_keys_dom _ events_by_tick) by apply dom_assign_loop.
  induction (sorted_keys events_by_tick) as [|t keys IH]; [done|].
  rewrite !bind_cons, IH. f_equal. f_equal. unfold hit_indices_from.
  apply (indices_from_msg (is_hit notes)). apply assign_loop_lookup_total.
Qed.

Lemma hand_of_hand_of left_track right_track t next old :
  hand_of left_track right_track t next (hand_of left_track right_track t next old)
  = hand_of left_track right_track t next old.
Proof.
  unfold hand_of. destruct (is_strong_tick t); [|done].
  destruct next as [t'|]; [|done]. by case_bool_decide.
Qed.

(** X8. [assign_hands_for_note] only re-tracks hits: the table keeps its
    ticks, every event keeps its place, its message and its tick, an event
    that is not a note-on of the note set is left identical, and a hit
    ends on its old track or on one of the two hand tracks. *)
Theorem assign_hands_for_note_keeps (events_by_tick : EventTable) notes
    left_track right_track :
  dom (assign_hands_for_note events_by_tick notes left_track right_track)
  = dom events_by_tick ∧
  ∀ l,
    match event_at events_by_tick l with
    | None =>
        event_at (assign_hands_for_note events_by_tick notes left_track right_track) l
        = None
    | Some e =>
        ∃ e',
          event_at (assign_hands_for_note events_by_tick notes left_track right_track) l
          = Some e' ∧
          msg e' = msg e ∧ tick e' = tick e ∧
          (track e' = track e ∨ track e' = left_track ∨ track e' = right_track) ∧
          (is_hit notes (msg e) = false → e' = e)
    end.
Proof.
  split; [apply dom_assign_loop|]. intros l. unfold assign_hands_for_note.
  destruct (assign_loop_tracks_only (note_hits events_by_tick notes)
              left_track right_track events_by_tick l) as (g & Hg & Hkeep).
  destruct (event_at events_by_tick l) as [e|] eqn:Hat; [|done].
  exists (g e). split; [done|]. destruct (Hkeep e) as (Hm & Ht & Htr).
  split; [done|]. split; [done|]. split; [done|].
  intros Hmiss.
  assert (l ∉ note_hits events_by_tick notes) as Hnin.
  { rewrite elem_of_note_hits. intros (e0 & He0 & Hh). congruence. }
  pose proof (assign_loop_other _ left_track right_track events_by_tick l Hnin) as Hsame.
  rewrite Hg, Hat in Hsame. simpl in Hsame. by injection Hsame.
Qed.

(** X9. [assign_hands_for_note] is idempotent: the decision for a hit
    depends on the ticks of the hit sequence only, which the pass does not
    change. *)
Theorem assign_hands_for_note_idempotent (events_by_tick : EventTable) notes
    left_track right_track :
  assign_hands_for_note
    (assign_hands_for_note events_by_tick notes left_track right_track)
    notes left_track right_track
  = assign_hands_for_note events_by_tick notes left_track right_track.
Proof.
  unfold assign_hands_for_note. rewrite note_hits_assign_loop.
  set (hits := note_hits events_by_tick notes).
  apply table_ext; [by rewrite !dom_assign_loop|]. intros l.
  destruct (decide (l ∈ hits)) as [[i Hi]%list_elem_of_lookup|Hnin].
  - rewrite !(assign_loop_hit hits _ _ _ i l) by (done || apply NoDup_note_hits).
    destruct (event_at events_by_tick l) as [e|]; [|done]. simpl.
    f_equal. unfold with_track. simpl. by rewrite hand_of_hand_of.
  - by rewrite (assign_loop_other hits _ _ _ l Hnin).
Qed.

(** ** detect_flam applied again *)

Section flam_again.
Variables from_note from_vel to_note left_track right_track : Z.

Lemma flam_tick_no_match t events :
  (∀ e, e ∈ events → flam_match from_note from_vel (msg e) = false) →
  flam_tick from_note from_vel to_note left_track right_track t events = events.
Proof.
  intros Hno. rewrite flam_tick_eq.
  induction events as [|e events IH]; [done|].
  assert (flam_match from_note from_vel (msg e) = false) as Hm by (apply Hno; by left).
  rewrite fmap_cons, filter_cons_False, Hm by congruence.
  simpl. f_equal. apply IH. intros e' He'. apply Hno. by right.
Qed.

Lemma flam_output_no_match t events e' :
  to_note ≠ from_note ∨ from_vel ≠ 100 →
  e' ∈ flam_tick from_note from_vel to_note left_track right_track t events →
  flam_match from_note from_vel (msg e') = false.
Proof.
  intros Hcond. rewrite flam_tick_eq, elem_of_app, !list_elem_of_fmap.
  assert (∀ c tm, flam_match from_note from_vel (NoteOn c to_note 100 tm) = false) as Hnew.
  { intros c tm. apply not_true_is_false. rewrite flam_match_note_on. simpl.
    intros (_ & ? & ?). destruct Hcond; congruence. }
  intros [(e & -> & He)|(e & -> & He)].
  - destruct (flam_match from_note from_vel (msg e)) eqn:Hm; [apply Hnew | done].
  - apply Hnew.
Qed.
End flam_again.

(** X10. [detect_flam] is idempotent as soon as its output does not match
    its own pattern, that is when [to_note] differs from [from_note] or
    [from_vel] is not 100 (in [main]: note 38 at velocity 127): the second
    application finds no flam and adds nothing. *)
Theorem detect_flam_idempotent (events_by_tick : EventTable)
    from_note from_vel to_note left_track right_track :
  to_note ≠ from_note ∨ from_vel ≠ 100 →
  detect_flam
    (detect_flam events_by_tick from_note from_vel to_note left_track right_track)
    from_note from_vel to_note left_track right_track
  = detect_flam events_by_tick from_note from_vel to_note left_track right_track.
Proof.
  intros Hcond. apply map_eq. intros t. rewrite !lookup_detect_flam.
  destruct (events_by_tick !! t) as [events|]; [|done]. simpl. f_equal.
  apply flam_tick_no_match. intros e' He'. by eapply flam_output_no_match.
Qed.

Lemma detect_flam_idempotent_witness :
  detect_flam (detect_flam flam_table 38 127 38 5 6) 38 127 38 5 6
  = detect_flam flam_table 38 127 38 5 6.
Proof. apply detect_flam_idempotent. right. lia. Defined.

(** ** replace_composite_notes: edge cases, shape and re-application *)

Lemma composite_events_split match_notes replace_with events :
  composite_events match_notes replace_with events
  = if bool_decide (length (matched_of match_notes events) = size match_notes) then
      base_event ← min_by_note (matched_of match_notes events);
      Ok (unmatched_of match_notes events
          ++ [with_msg (copy_note replace_with (msg base_event)) base_event]
          ++ others_of events)
    else Ok events.
Proof. apply composite_events_eq. Qed.

Lemma matched_of_empty events : matched_of ∅ events = [].
Proof.
  unfold matched_of. induction (note_ons_of events) as [|e l IH]; [done|].
  rewrite filter_cons_False; [done|]. unfold in_match.
  rewrite bool_decide_eq_false_2; [done|]. apply not_elem_of_empty.
Qed.

Lemma composite_events_empty_match replace_with events :
  composite_events ∅ replace_with events = Err ValueError_min_empty.
Proof.
  rewrite composite_events_split, matched_of_empty. reflexivity.
Qed.

(** X11. With an empty match set [replace_composite_notes] raises the
    ValueError of [min()] on an empty sequence as soon as the table has
    one tick (the count test 0 == 0 holds at every tick); only the empty
    table passes through. *)
Theorem replace_composite_notes_empty_match (events_by_tick : EventTable) replace_with :
  replace_composite_notes events_by_tick ∅ replace_with
  = if decide (events_by_tick = ∅) then Ok events_by_tick else Err ValueError_min_empty.
Proof.
  unfold replace_composite_notes.
  destruct (map_to_list events_by_tick) as [|[t events] items] eqn:Hl.
  - apply map_to_list_empty_iff in Hl. by rewrite decide_True.
  - rewrite decide_False.
    + simpl. rewrite composite_events_empty_match. simpl. apply composite_fold_Err.
    + intros ->. by rewrite map_to_list_empty in Hl.
Qed.

Lemma replace_composite_notes_dom (events_by_tick tbl' : EventTable) match_notes replace_with :
  replace_composite_notes events_by_tick match_notes replace_with = Ok tbl' →
  dom tbl' = dom events_by_tick.
Proof.
  intros Hrun. apply set_eq. intros t. rewrite !elem_of_dom.
  pose proof (replace_composite_notes_lookup _ _ _ _ t Hrun) as Hl.
  destruct (events_by_tick !! t) as [events|].
  - destruct Hl as (events' & _ & ->). split; eauto.
  - rewrite Hl. done.
Qed.

(** X12. With a non-empty match set and a [replace_with] that is a MIDI
    note number (0..127, what [copy] accepts) [replace_composite_notes]
    returns a table with the same ticks.  A tick where the number of note-ons with a
    note in the match set differs from the size of the set is unchanged.
    At the other ticks the new list is: the note-ons outside the match set,
    then one replacement, then the events that are not note-ons, each
    group in its old order; the replacement is a matched event of smallest
    note with its note set to [replace_with], so the tick shrinks by the
    size of the set minus one. *)
Theorem replace_composite_notes_shape (events_by_tick : EventTable) match_notes replace_with :
  match_notes ≠ ∅ → 0 ≤ replace_with ≤ 127 →
  ∃ tbl',
    replace_composite_notes events_by_tick match_notes replace_with = Ok tbl' ∧
    dom tbl' = dom events_by_tick ∧
    ∀ t events, events_by_tick !! t = Some events →
      (length (matched_of match_notes events) ≠ size match_notes →
       tbl' !! t = Some events) ∧
      (length (matched_of match_notes events) = size match_notes →
       ∃ base events',
         tbl' !! t = Some events' ∧
         base ∈ matched_of match_notes events ∧
         (∀ x, x ∈ matched_of match_notes events → msg_note (msg base) ≤ msg_note (msg x)) ∧
         events' = unmatched_of match_notes events
                   ++ [with_msg (copy_note replace_with (msg base)) base]
                   ++ others_of events ∧
         (length events' + size match_notes = length events + 1)%nat).
Proof.
  intros Hne _.
  destruct (replace_composite_notes_total match_notes replace_with events_by_tick Hne)
    as [tbl' Hrun].
  exists tbl'. split; [done|]. split; [by eapply replace_composite_notes_dom|].
  intros t events Ht.
  pose proof (replace_composite_notes_lookup _ _ _ _ t Hrun) as Hl.
  rewrite Ht in Hl. destruct Hl as (events' & Hbody & Hl).
  rewrite composite_events_split in Hbody. split.
  - intros Hlen. rewrite bool_decide_eq_false_2 in Hbody by done. congruence.
  - intros Hlen. rewrite bool_decide_eq_true_2 in Hbody by done.
    destruct (min_by_note (matched_of match_notes events)) as [base|] eqn:Hbase; [|done].
    simpl in Hbody. injection Hbody as <-.
    exists base. eexists. split; [done|].
    split; [by apply min_by_note_elem|]. split; [by apply min_by_note_least|].
    split; [done|].
    rewrite !length_app. simpl. rewrite <- Hlen.
    pose proof (filter_app_complement (λ e, msg_type (msg e) = note_on) events) as Hp1.
    apply Permutation_length in Hp1. rewrite length_app in Hp1.
    pose proof (filter_app_complement (λ e, in_match match_notes e = true)
                  (note_ons_of events)) as Hp2.
    apply Permutation_length in Hp2. rewrite length_app in Hp2.
    assert (filter (λ e, ¬ in_match match_notes e = true) (note_ons_of events)
            = unmatched_of match_notes events) as Heq.
    { unfold unmatched_of. apply list_filter_iff. intros e.
      destruct (in_match match_notes e); split; congruence. }
    rewrite Heq in Hp2. unfold matched_of, others_of, note_ons_of in *. lia.
Qed.

Lemma replace_composite_notes_shape_witness :
  ∃ tbl',
    replace_composite_notes tom_table {[110; 98]} 48 = Ok tbl' ∧
    tbl' !! 0 = Some [mkEvent 0 0 (NoteOn 9 96 100 0); mkEvent 0 0 (NoteOn 9 48 100 0);
                      mkEvent 0 0 (Other "set_tempo" [500000] 0)] ∧
    tbl' !! 48 = Some [mkEvent 48 0 (NoteOn 9 110 100 48)].
Proof.
  destruct (replace_composite_notes_shape tom_table {[110; 98]} 48
              (match_set_nonempty 110 98) ltac:(lia)) as (tbl' & Hrun & _ & Hshape).
  exists tbl'. split; [done|]. split.
  - destruct (Hshape 0 _ eq_refl) as [_ Hfire].
    destruct (Hfire eq_refl) as (base & events' & Hl & Hin & Hleast & -> & _).
    rewrite Hl. f_equal.
    change (matched_of {[110; 98]} [mkEvent 0 0 (Other "set_tempo" [500000] 0);
              mkEvent 0 0 (NoteOn 9 110 90 0); mkEvent 0 0 (NoteOn 9 96 100 0);
              mkEvent 0 0 (NoteOn 9 98 100 0)])
      with [mkEvent 0 0 (NoteOn 9 110 90 0); mkEvent 0 0 (NoteOn 9 98 100 0)]
      in Hin, Hleast.
    assert (base = mkEvent 0 0 (NoteOn 9 98 100 0)) as ->; [|reflexivity].
    apply elem_of_cons in Hin as [->|Hin].
    + specialize (Hleast (mkEvent 0 0 (NoteOn 9 98 100 0))). simpl in Hleast.
      assert (110 ≤ 98) by (apply Hleast; by right; left). lia.
    + by apply list_elem_of_singleton in Hin.
  - destruct (Hshape 48 _ eq_refl) as [Hkeep _]. apply Hkeep.
    vm_compute. lia.
Defined.

Lemma filter_filter_nil {A} (P Q : A → Prop) `{∀ x, Decision (P x)} `{∀ x, Decision (Q x)}
    (l : list A) :
  (∀ x, x ∈ l → P x → ¬ Q x) → filter Q (filter P l) = [].
Proof.
  intros Hno. induction l as [|x l IH]; [done|].
  rewrite filter_cons. destruct (decide (P x)) as [HP|HP].
  - rewrite filter_cons_False by (apply Hno; [by left | done]).
    apply IH. intros y Hy. apply Hno. by right.
  - apply IH. intros y Hy. apply Hno. by right.
Qed.

Lemma composite_events_again match_notes replace_with events events' :
  match_notes ≠ ∅ → replace_with ∉ match_notes →
  composite_events match_notes replace_with events = Ok events' →
  composite_events match_notes replace_with events' = Ok events'.
Proof.
  intros Hne Hout. rewrite composite_events_split.
  case_bool_decide as Hlen; [|by intros [= <-]; rewrite composite_events_split,
                                    bool_decide_eq_false_2].
  destruct (min_by_note (matched_of match_notes events)) as [base|] eqn:Hbase; [|done].
  simpl. intros [= <-]. rewrite composite_events_split.
  assert (matched_of match_notes
            (unmatched_of match_notes events
             ++ with_msg (copy_note replace_with (msg base)) base :: others_of events)
          = []) as ->.
  { apply filter_filter_nil. intros e He Hty.
    apply elem_of_app in He as [He|He].
    - apply list_elem_of_filter in He as [Hm _]. congruence.
    - apply elem_of_cons in He as [->|He].
      + apply min_by_note_elem in Hbase.
        apply list_elem_of_filter in Hbase as [_ Hb].
        apply list_elem_of_filter in Hb as [Hb _].
        unfold in_match. simpl. rewrite msg_note_copy_note by done.
        by rewrite bool_decide_eq_false_2.
      + apply list_elem_of_filter in He as [Hnon _]. done. }
  rewrite bool_decide_eq_false_2; [done|]. simpl. intros Hsz.
  symmetry in Hsz. by apply size_empty_iff, leibniz_equiv in Hsz.
Qed.

(** X13. When the replacement note is not itself in the (non-empty) match
    set, [replace_composite_notes] is idempotent: on its own result it
    returns that result, since a tick it rewrote holds no note of the match
    set any more. *)
Theorem replace_composite_notes_idempotent (events_by_tick tbl' : EventTable)
    match_notes replace_with :
  match_notes ≠ ∅ → replace_with ∉ match_notes →
  replace_composite_notes events_by_tick match_notes replace_with = Ok tbl' →
  replace_composite_notes tbl' match_notes replace_with = Ok tbl'.
Proof.
  intros Hne Hout Hrun.
  destruct (replace_composite_notes_total match_notes replace_with tbl' Hne)
    as [tbl'' Hrun'].
  rewrite Hrun'. f_equal. apply map_eq. intros t.
  pose proof (replace_composite_notes_lookup _ _ _ _ t Hrun) as Hl.
  pose proof (replace_composite_notes_lookup _ _ _ _ t Hrun') as Hl'.
  destruct (events_by_tick !! t) as [events|].
  - destruct Hl as (events' & Hbody & Hl). rewrite Hl in Hl'.
    destruct Hl' as (events'' & Hbody' & Hl').
    rewrite (composite_events_again _ _ _ _ Hne Hout Hbody) in Hbody'.
    congruence.
  - rewrite Hl in Hl'. congruence.
Qed.

Lemma replace_composite_notes_idempotent_witness :
  ∃ tbl', replace_composite_notes tom_table {[110; 98]} 48 = Ok tbl' ∧
          replace_composite_notes tbl' {[110; 98]} 48 = Ok tbl'.
Proof.
  eexists. split; [by vm_compute|].
  apply (replace_composite_notes_idempotent tom_table).
  - apply match_set_nonempty.
  - apply (bool_decide_unpack _). by vm_compute.
  - by vm_compute.
Defined.

(** ** write_midi: the delta encoding *)

Lemma copy_time_self m : copy_time (msg_time m) m = m.
Proof. by destruct m. Qed.

Lemma abs_times_encode_erase a flat_events :
  erase_time <$> abs_times a (delta_encode a flat_events) = erase_time <$> flat_events.
Proof.
  revert a. induction flat_events as [|[t m] flat IH]; intros a; [done|].
  simpl. rewrite msg_time_copy_time. replace (a + (t - a)) with t by lia.
  rewrite IH. unfold erase_time at 1 3. simpl. by rewrite copy_time_copy_time.
Qed.

Lemma delta_encode_abs_times a trk : delta_encode a (abs_times a trk) = trk.
Proof.
  revert a. induction trk as [|m trk IH]; intros a; [done|].
  simpl. rewrite IH. f_equal.
  replace (a + msg_time m - a) with (msg_time m) by lia. apply copy_time_self.
Qed.

(** X14. Delta re-encoding round trip.  Summing the delta times of an
    encoded sequence gives back the absolute tick of every message, in
    order, with the message unchanged but for its time field; and encoding
    the absolute timeline of a track gives the track back. *)
Theorem delta_encode_round_trip a :
  (∀ flat_events,
     erase_time <$> abs_times a (delta_encode a flat_events) = erase_time <$> flat_events) ∧
  (∀ trk, delta_encode a (abs_times a trk) = trk).
Proof. split; [apply abs_times_encode_erase | apply delta_encode_abs_times]. Qed.

Lemma fst_erase_time (l : list (Z * Message)) : (erase_time <$> l).*1 = l.*1.
Proof. rewrite <- list_fmap_compose. by apply list_fmap_ext. Qed.

Lemma abs_times_synth_track_ticks events :
  (abs_times 0 (synth_track events)).*1 = (sort_by fst (flat_events_of events)).*1.
Proof.
  unfold synth_track.
  by rewrite <- fst_erase_time, abs_times_encode_erase, fst_erase_time.
Qed.

Lemma sort_by_fst_sorted (l : list (Z * Message)) :
  StronglySorted Z.le (sort_by fst l).*1.
Proof.
  pose proof (sort_by_Sorted fst l) as Hs.
  apply Sorted_StronglySorted in Hs; [|intros x y z; unfold key_le; lia].
  induction Hs as [|p l' Hs IH Hall]; [constructor|].
  rewrite fmap_cons. constructor; [done|].
  apply Forall_fmap. eapply Forall_impl; [exact Hall|]. done.
Qed.

Lemma delta_encode_nonneg a flat_events :
  StronglySorted Z.le flat_events.*1 →
  (∀ p, p ∈ flat_events → a ≤ p.1) →
  ∀ m, m ∈ delta_encode a flat_events → 0 ≤ msg_time m.
Proof.
  revert a. induction flat_events as [|[t m0] flat IH]; intros a Hs Hlow m Hm.
  { by apply elem_of_nil in Hm. }
  rewrite fmap_cons in Hs. apply StronglySorted_cons in Hs as [Hall Hs].
  simpl in Hm. apply elem_of_cons in Hm as [->|Hm].
  - rewrite msg_time_copy_time. specialize (Hlow (t, m0)). simpl in Hlow.
    assert (a ≤ t) by (apply Hlow; by left). lia.
  - apply (IH t Hs); [|done]. intros p Hp. rewrite Forall_forall in Hall.
    apply Hall. by apply list_elem_of_fmap_2.
Qed.

(** X15. An output track is chronological: the absolute ticks of its
    messages never decrease, and when no event of the track has a negative
    tick every delta time written is non-negative. *)
Theorem synth_track_chronological events :
  StronglySorted Z.le (abs_times 0 (synth_track events)).*1 ∧
  ((∀ e, e ∈ events → 0 ≤ tick e) →
   ∀ m, m ∈ synth_track events → 0 ≤ msg_time m).
Proof.
  split.
  - rewrite abs_times_synth_track_ticks. apply sort_by_fst_sorted.
  - intros Hpos. apply delta_encode_nonneg; [apply sort_by_fst_sorted|].
    intros [t m] (e & He & Hcase)%elem_of_sort_by%elem_of_flat_events_of.
    specialize (Hpos e He). unfold DEFAULT_DURATION in Hcase. simpl.
    destruct Hcase as [[-> _]|(_ & -> & _)]; lia.
Qed.

Lemma synth_track_chronological_witness :
  Forall (λ m, 0 ≤ msg_time m)
         (synth_track [mkEvent 0 2 (NoteOn 9 36 100 0);
                       mkEvent 4 2 (Other "control_change" [7; 100] 4)]).
Proof.
  apply Forall_forall. apply synth_track_chronological.
  intros e. rewrite !elem_of_cons, elem_of_nil. intros [->|[->|[]]]; simpl; lia.
Defined.

(** The sort is stable: the elements of one key keep their order. *)
Lemma insert_by_filter_key {A} (key : A → Z) k x l :
  filter (λ y, key y = k) (insert_by key x l) = filter (λ y, key y = k) (x :: l).
Proof.
  induction l as [|y l IH]; [done|]. simpl. case_bool_decide as Hle; [done|].
  rewrite filter_cons, IH, !(filter_cons _ x), !(filter_cons _ y).
  destruct (decide (key y = k)), (decide (key x = k)); try done. lia.
Qed.

Lemma sort_by_filter_key {A} (key : A → Z) k l :
  filter (λ y, key y = k) (sort_by key l) = filter (λ y, key y = k) l.
Proof.
  induction l as [|x l IH]; [done|]. simpl.
  by rewrite insert_by_filter_key, !filter_cons, IH.
Qed.

Lemma filter_tick_erase t (l : list (Z * Message)) :
  filter (λ p, p.1 = t) (erase_time <$> l) = erase_time <$> filter (λ p, p.1 = t) l.
Proof.
  induction l as [|p l IH]; [done|].
  rewrite fmap_cons, !filter_cons. simpl.
  destruct (decide (p.1 = t)); by rewrite IH.
Qed.

(** X16. Ties keep the insertion order: the messages an output track
    holds at one absolute tick are the ones generated for that tick, in
    the order in which the loop over the events generated them. *)
Theorem synth_track_stable events t :
  filter (λ p, p.1 = t) (erase_time <$> abs_times 0 (synth_track events))
  = erase_time <$> filter (λ p, p.1 = t) (flat_events_of events).
Proof.
  unfold synth_track.
  by rewrite abs_times_encode_erase, filter_tick_erase, (sort_by_filter_key fst).
Qed.

(** ** write_midi: which tracks are written *)

Lemma NoDup_constant_length {A} (c : A) (l : list A) :
  NoDup l → (∀ x, x ∈ l → x = c) → (length l ≤ 1)%nat.
Proof.
  intros Hnd Hall. destruct l as [|x [|y l]]; simpl; [lia..|].
  apply NoDup_cons in Hnd as [Hnin _]. destruct Hnin.
  rewrite (Hall x) by (by left). rewrite <- (Hall y) by (by right; left). by left.
Qed.

Lemma NoDup_emitted_ids (events_by_tick : EventTable) in_track :
  NoDup (emitted_ids events_by_tick in_track).
Proof. apply NoDup_filter, NoDup_sorted_keys. Qed.

Lemma length_synth_tracks (events_by_tick : EventTable) in_track :
  length (synth_tracks events_by_tick in_track)
  = length (emitted_ids events_by_tick in_track).
Proof. unfold synth_tracks. apply length_fmap. Qed.

(** X17. The single-track filter never yields a file: with [in_track]
    at 0 or above at most one track is built, so naming the second track
    (or the first, when no event is on [in_track]) raises IndexError,
    whatever the table. *)
Theorem write_midi_filter_raises (events_by_tick : EventTable) in_track :
  0 ≤ in_track →
  (length (synth_tracks events_by_tick in_track) ≤ 1)%nat ∧
  write_midi events_by_tick in_track = Err IndexError.
Proof.
  intros Hin.
  assert (length (synth_tracks events_by_tick in_track) ≤ 1)%nat as Hlen.
  { rewrite length_synth_tracks.
    apply (NoDup_constant_length in_track); [apply NoDup_emitted_ids|].
    intros id [_ Hkeep]%elem_of_emitted_ids.
    destruct (decide (id = in_track)); [done|]. destruct Hkeep. split; [lia|done]. }
  split; [done|]. apply write_midi_Err. lia.
Qed.

Lemma write_midi_filter_raises_witness :
  write_midi final_table 2 = Err IndexError.
Proof. apply write_midi_filter_raises. lia. Defined.

Lemma StronglySorted_filter {A} (R : relation A) (P : A → Prop) `{∀ x, Decision (P x)} l :
  StronglySorted R l → StronglySorted R (filter P l).
Proof.
  induction 1 as [|x l Hs IH Hall]; [constructor|].
  rewrite filter_cons. destruct (decide (P x)); [|done].
  constructor; [done|]. apply Forall_forall. intros y [_ Hy]%list_elem_of_filter.
  rewrite Forall_forall in Hall. by apply Hall.
Qed.

(** X18. When all tracks are written ([in_track] negative) one track is
    built for each distinct track index carried by an event of the table,
    each once, in ascending order of the index. *)
Theorem write_midi_one_track_per_index (events_by_tick : EventTable) in_track :
  in_track < 0 →
  let ids := emitted_ids events_by_tick in_track in
  length (synth_tracks events_by_tick in_track) = length ids ∧
  NoDup ids ∧ StronglySorted Z.le ids ∧
  ∀ id, id ∈ ids ↔ ∃ t e, stored events_by_tick t e ∧ track e = id.
Proof.
  intros Hall ids. split; [apply length_synth_tracks|].
  split; [apply NoDup_emitted_ids|]. split.
  - apply StronglySorted_filter, sorted_keys_StronglySorted.
  - intros id. unfold ids. rewrite elem_of_emitted_ids. split; [tauto|].
    intros Hex. split; [done|]. lia.
Qed.

Lemma write_midi_one_track_per_index_witness :
  emitted_ids final_table (-1) = [2; 5] ∧
  (2 ∈ emitted_ids final_table (-1) ↔ ∃ t e, stored final_table t e ∧ track e = 2).
Proof.
  split; [reflexivity|].
  apply (write_midi_one_track_per_index final_table (-1)). lia.
Defined.

(** ** write_midi: the container *)

Lemma name_of_rename name trk trk' :
  rename_first name trk = Some trk' → name_of trk' = name.
Proof.
  revert trk'. induction trk as [|m trk IH]; intros trk' Hren; [done|].
  destruct m; simpl in Hren;
    try (destruct (rename_first name trk) as [rest'|] eqn:Hr; [|done];
         simpl in Hren; injection Hren as <-; simpl; by apply IH).
  by injection Hren as <-.
Qed.

Lemma name_of_set_name name trk : name_of (set_name name trk) = name.
Proof.
  unfold set_name. destruct (rename_first name trk) as [trk'|] eqn:Hren; [|done].
  by apply name_of_rename with trk.
Qed.

Lemma filter_rename name trk trk' :
  rename_first name trk = Some trk' →
  filter (λ m, msg_type m ≠ track_name) trk'
  = filter (λ m, msg_type m ≠ track_name) trk.
Proof.
  revert trk'. induction trk as [|m trk IH]; intros trk' Hren; [done|].
  destruct m; simpl in Hren;
    try (destruct (rename_first name trk) as [rest'|] eqn:Hr; [|done];
         simpl in Hren; injection Hren as <-;
         rewrite !filter_cons; simpl; by rewrite (IH _ eq_refl)).
  injection Hren as <-. rewrite !filter_cons. simpl. done.
Qed.

Lemma filter_set_name name trk :
  filter (λ m, msg_type m ≠ track_name) (set_name name trk)
  = filter (λ m, msg_type m ≠ track_name) trk.
Proof.
  unfold set_name. destruct (rename_first name trk) as [trk'|] eqn:Hren.
  - by apply filter_rename with name.
  - rewrite filter_cons. simpl. done.
Qed.

(** X19. [write_midi] returns a container exactly when two tracks or
    more are built.  The container then has resolution [EXPECTED_TPB], as
    many tracks as were built, the first named RH and the second LH; the
    naming touches [track_name] messages only, and the tracks after the
    second are written as built. *)
Theorem write_midi_container (events_by_tick : EventTable) in_track :
  let built := synth_tracks events_by_tick in_track in
  ((∃ out, write_midi events_by_tick in_track = Ok out) ↔ (2 ≤ length built)%nat) ∧
  ((length built < 2)%nat → write_midi events_by_tick in_track = Err IndexError) ∧
  ∀ out, write_midi events_by_tick in_track = Ok out →
    ticks_per_beat out = 96 ∧
    length (tracks out) = length built ∧
    (name_of <$> tracks out !! 0%nat) = Some "RH"%string ∧
    (name_of <$> tracks out !! 1%nat) = Some "LH"%string ∧
    (filter (λ m, msg_type m ≠ track_name) <$> tracks out)
    = (filter (λ m, msg_type m ≠ track_name) <$> built) ∧
    drop 2 (tracks out) = drop 2 built.
Proof.
  intros built. split; [|split].
  - split.
    + intros [out (t0 & t1 & rest & Hb & _)%write_midi_Ok_inv].
      unfold built. rewrite Hb. simpl. lia.
    + intros Hlen. unfold built in Hlen.
      destruct (synth_tracks events_by_tick in_track) as [|t0 [|t1 rest]] eqn:Hb;
        simpl in Hlen; [lia..|].
      eexists. apply write_midi_Ok_inv. by exists t0, t1, rest.
  - apply write_midi_Err.
  - intros out (t0 & t1 & rest & Hb & ->)%write_midi_Ok_inv.
    unfold built. rewrite Hb. simpl. rewrite !name_of_set_name, !filter_set_name.
    done.
Qed.

Lemma write_midi_container_witness :
  ∃ out, write_midi final_table (-1) = Ok out ∧ ticks_per_beat out = 96 ∧
         (name_of <$> tracks out !! 0%nat) = Some "RH"%string.
Proof.
  destruct (write_midi_container final_table (-1)) as (Hex & _ & Hout).
  destruct (proj2 Hex) as [out Hw]; [vm_compute; lia|].
  exists out. split; [done|]. destruct (Hout out Hw) as (Htpb & _ & Hname & _).
  done.
Defined.

(** ** What the rule script of [main] leaves behind *)

Lemma replace_track_clears (events_by_tick : EventTable) from_track to_track :
  from_track ≠ to_track →
  no_track from_track (replace_track events_by_tick from_track to_track).
Proof.
  intros Hne l e'. rewrite replace_track_eq, event_at_pointwise.
  destruct (event_at events_by_tick l) as [e|]; [|done]. simpl. intros [= <-].
  unfold track_event. case_bool_decide; simpl; congruence.
Qed.

Lemma replace_track_keeps_clear (events_by_tick : EventTable) from_track to_track c :
  c ≠ to_track → no_track c events_by_tick →
  no_track c (replace_track events_by_tick from_track to_track).
Proof.
  intros Hc Hno l e'. rewrite replace_track_eq, event_at_pointwise.
  destruct (event_at events_by_tick l) as [e|] eqn:Hat; [|done]. simpl. intros [= <-].
  unfold track_event. case_bool_decide; simpl; [congruence|]. by apply (Hno l).
Qed.

(** X21. After the rule script of [main] no event is on track 0, 1 or 6:
    the three closing [replace_track] passes fold these tracks into
    track 2, so the right-hand events of the hand assignment and the
    events of the first two input tracks end on one output track. *)
Theorem transform_folds_tracks (events tbl' : EventTable) :
  transform events = Ok tbl' →
  no_track 0 tbl' ∧ no_track 1 tbl' ∧ no_track 6 tbl'.
Proof.
  unfold transform. intros Hrun.
  apply bind_Ok_inv in Hrun as (e1 & _ & Hrun).
  apply bind_Ok_inv in Hrun as (e2 & _ & Hrun).
  apply bind_Ok_inv in Hrun as (e3 & _ & Hrun).
  apply Ok_inj in Hrun. cbv zeta in Hrun. subst tbl'.
  split; [|split].
  - do 2 (apply replace_track_keeps_clear; [lia|]). apply replace_track_clears. lia.
  - apply replace_track_keeps_clear; [lia|]. apply replace_track_clears. lia.
  - apply replace_track_clears. lia.
Qed.

Lemma transform_folds_tracks_witness :
  ∃ tbl', transform kick_table = Ok tbl' ∧ no_track 0 tbl'.
Proof.
  destruct (transform_total kick_table) as [tbl' Hrun].
  exists tbl'. split; [done|]. by apply (transform_folds_tracks kick_table).
Defined.

(** Passes and the absence of a note number. *)
Lemma pointwise_no_note (f : Event → Event) n (events_by_tick : EventTable) :
  (∀ e, (msg_type (msg e) = note_on → msg_note (msg e) ≠ n) →
        msg_type (msg (f e)) = note_on → msg_note (msg (f e)) ≠ n) →
  no_note n events_by_tick →
  no_note n ((λ events : list Event, f <$> events) <$> events_by_tick).
Proof.
  intros Hf Hno l e'. rewrite event_at_pointwise.
  destruct (event_at events_by_tick l) as [e|] eqn:Hat; [|done]. simpl. intros [= <-].
  apply Hf. by apply (Hno l).
Qed.

Lemma replace_single_note_clears (events_by_tick : EventTable) from_note to_note :
  from_note ≠ to_note →
  no_note from_note (replace_single_note events_by_tick from_note to_note).
Proof.
  intros Hne l e'. rewrite event_at_replace_single_note.
  destruct (event_at events_by_tick l) as [e|]; [|done]. simpl. intros [= <-].
  destruct (decide (msg_type (msg e) = note_on ∧ msg_note (msg e) = from_note))
    as [[Hty Hn]|Hno].
  - rewrite single_note_event_hit by done. simpl. congruence.
  - rewrite single_note_event_miss by done. tauto.
Qed.

Lemma replace_single_note_no_note (events_by_tick : EventTable) from_note to_note n :
  to_note ≠ n → no_note n events_by_tick →
  no_note n (replace_single_note events_by_tick from_note to_note).
Proof.
  intros Hne. apply pointwise_no_note. intros e He.
  destruct (decide (msg_type (msg e) = note_on ∧ msg_note (msg e) = from_note))
    as [[Hty Hn]|Hno].
  - rewrite single_note_event_hit by done. simpl. congruence.
  - by rewrite single_note_event_miss.
Qed.

Lemma replace_note_if_velocity_no_note (events_by_tick : EventTable)
    from_note from_vel to_note n :
  to_note ≠ n → no_note n events_by_tick →
  no_note n (replace_note_if_velocity events_by_tick from_note from_vel to_note).
Proof.
  intros Hne. rewrite replace_note_if_velocity_eq. apply pointwise_no_note. intros e He.
  destruct (flam_match from_note from_vel (msg e)) eqn:Hm.
  - rewrite note_if_velocity_event_hit by done. simpl. congruence.
  - unfold note_if_velocity_event. by rewrite Hm.
Qed.

Lemma replace_velocity_if_velocity_no_note (events_by_tick : EventTable) from_vel to_vel n :
  no_note n events_by_tick →
  no_note n (replace_velocity_if_velocity events_by_tick from_vel to_vel).
Proof.
  rewrite replace_velocity_if_velocity_eq. apply pointwise_no_note. intros e He.
  destruct (decide (msg_type (msg e) = note_on ∧ msg_velocity (msg e) = from_vel))
    as [[Hty Hv]|Hno].
  - rewrite velocity_event_hit by done. simpl. auto.
  - by rewrite velocity_event_miss.
Qed.

Lemma replace_track_no_note (events_by_tick : EventTable) from_track to_track n :
  no_note n events_by_tick → no_note n (replace_track events_by_tick from_track to_track).
Proof.
  rewrite replace_track_eq. apply pointwise_no_note. intros e He.
  unfold track_event. by case_bool_decide.
Qed.

Lemma replace_note_track_no_note (events_by_tick : EventTable) notes to_track n :
  no_note n events_by_tick → no_note n (replace_note_track events_by_tick notes to_track).
Proof.
  rewrite replace_note_track_eq. apply pointwise_no_note. intros e He.
  unfold note_track_event. by destruct (is_hit notes (msg e)).
Qed.

Lemma assign_hands_for_note_no_note (events_by_tick : EventTable) notes
    left_track right_track n :
  no_note n events_by_tick →
  no_note n (assign_hands_for_note events_by_tick notes left_track right_track).
Proof.
  intros Hno l e' (e & Hat & Hm & _)%assign_loop_event_at. rewrite Hm. by apply (Hno l).
Qed.

Lemma detect_flam_no_note (events_by_tick : EventTable)
    from_note from_vel to_note left_track right_track n :
  to_note ≠ n → no_note n events_by_tick →
  no_note n (detect_flam events_by_tick from_note from_vel to_note left_track right_track).
Proof.
  intros Hne Hno l e' (events' & Hev' & He')%event_at_Some.
  rewrite lookup_detect_flam in Hev'.
  destruct (events_by_tick !! l.1) as [events|] eqn:Ht; [|done].
  simpl in Hev'. injection Hev' as <-. rewrite flam_tick_eq in He'.
  apply list_elem_of_lookup_2, elem_of_app in He' as [He'|He'];
    apply list_elem_of_fmap in He' as (e & -> & He).
  - destruct (flam_match from_note from_vel (msg e)) eqn:Hm; [simpl; congruence|].
    apply list_elem_of_lookup in He as [j Hj]. apply (Hno (l.1, j)).
    apply event_at_Some. by exists events.
  - simpl. congruence.
Qed.

(** Strips the passes off the table the rule script returns. *)
Ltac strip_passes :=
  repeat first
    [ apply replace_track_no_note
    | apply detect_flam_no_note; [lia|]
    | apply assign_hands_for_note_no_note
    | apply replace_note_track_no_note
    | apply replace_velocity_if_velocity_no_note
    | apply replace_note_if_velocity_no_note; [lia|]
    | apply replace_single_note_clears; lia
    | apply replace_single_note_no_note; [lia|] ].

(** X22. After the rule script of [main] no note-on carries one of the
    chart's pad numbers 95 to 100: each is renumbered by its
    [replace_single_note] pass and no later pass produces it again. *)
Theorem transform_clears_pads (events tbl' : EventTable) :
  transform events = Ok tbl' →
  ∀ n, 95 ≤ n ≤ 100 → no_note n tbl'.
Proof.
  unfold transform. intros Hrun n Hn.
  apply bind_Ok_inv in Hrun as (e1 & _ & Hrun).
  apply bind_Ok_inv in Hrun as (e2 & _ & Hrun).
  apply bind_Ok_inv in Hrun as (e3 & _ & Hrun).
  apply Ok_inj in Hrun. cbv zeta in Hrun. subst tbl'.
  assert (n = 95 ∨ n = 96 ∨ n = 97 ∨ n = 98 ∨ n = 99 ∨ n = 100) as Hcases by lia.
  destruct Hcases as [->|[->|[->|[->|[->| ->]]]]]; strip_passes.
Qed.

Lemma transform_clears_pads_witness :
  ∃ tbl', transform kick_table = Ok tbl' ∧ no_note 96 tbl'.
Proof.
  destruct (transform_total kick_table) as [tbl' Hrun].
  exists tbl'. split; [done|]. apply (transform_clears_pads kick_table); [done | lia].
Defined.

(** ** read_midi_events: order and ticks *)

Lemma lookup_total_append_event (events_by_tick : EventTable) e t :
  append_event events_by_tick e !!! t
  = events_by_tick !!! t ++ filter (λ x, tick x = t) [e].
Proof.
  unfold append_event. destruct (decide (tick e = t)) as [<-|Hne].
  - rewrite lookup_total_insert_eq. by rewrite filter_cons_True.
  - rewrite lookup_total_insert_ne by done. rewrite filter_cons_False by done.
    by rewrite app_nil_r.
Qed.

Lemma lookup_total_read_track k a msgs (events_by_tick : EventTable) t :
  read_track k a msgs events_by_tick !!! t
  = events_by_tick !!! t ++ filter (λ x, tick x = t) (track_events_from k a msgs).
Proof.
  revert a events_by_tick. induction msgs as [|m msgs IH]; intros a tbl.
  { by rewrite app_nil_r. }
  simpl. destruct (is_note_off m); rewrite IH; [done|].
  rewrite lookup_total_append_event, <- app_assoc. f_equal.
  by rewrite <- filter_app.
Qed.

Lemma lookup_total_read_tracks k trks (events_by_tick : EventTable) t :
  read_tracks k trks events_by_tick !!! t
  = events_by_tick !!! t ++ filter (λ x, tick x = t) (container_events_from k trks).
Proof.
  revert k events_by_tick. induction trks as [|trk trks IH]; intros k tbl.
  { by rewrite app_nil_r. }
  simpl. by rewrite IH, lookup_total_read_track, <- app_assoc, filter_app.
Qed.

Lemma read_track_nonempty k a msgs (events_by_tick : EventTable) :
  map_Forall (λ _ events, events ≠ []) events_by_tick →
  map_Forall (λ _ events, events ≠ []) (read_track k a msgs events_by_tick).
Proof.
  revert a events_by_tick. induction msgs as [|m msgs IH]; intros a tbl Hne; [done|].
  simpl. destruct (is_note_off m); apply IH; [done|].
  unfold append_event. apply map_Forall_insert_2; [|done].
  by destruct (tbl !!! _).
Qed.

Lemma read_tracks_nonempty k trks (events_by_tick : EventTable) :
  map_Forall (λ _ events, events ≠ []) events_by_tick →
  map_Forall (λ _ events, events ≠ []) (read_tracks k trks events_by_tick).
Proof.
  revert k events_by_tick. induction trks as [|trk trks IH]; intros k tbl Hne; [done|].
  simpl. by apply IH, read_track_nonempty.
Qed.

(** X23. Ingestion groups the events of the container by tick without
    reordering them: the list under a tick is the file-order list of
    events (track after track, message after message, note-offs left out)
    restricted to that tick, and a tick is a key of the table only when
    its list is not empty. *)
Theorem read_midi_events_groups_in_order mid (events_by_tick : EventTable) :
  read_midi_events mid = Ok events_by_tick →
  (∀ t, events_by_tick !!! t
        = filter (λ e, tick e = t) (container_events_from 0 (tracks mid))) ∧
  (∀ t, t ∈ dom events_by_tick ↔
        ∃ e, e ∈ container_events_from 0 (tracks mid) ∧ tick e = t).
Proof.
  unfold read_midi_events. case_bool_decide; [done|]. intros [= <-].
  assert (Hlk : ∀ t, read_tracks 0 (tracks mid) ∅ !!! t
                     = filter (λ e, tick e = t) (container_events_from 0 (tracks mid))).
  { intros t. by rewrite lookup_total_read_tracks, lookup_total_empty. }
  split; [done|]. intros t.
  pose proof (read_tracks_nonempty 0 (tracks mid) ∅ (map_Forall_empty _)) as Hne.
  specialize (Hlk t). rewrite lookup_total_alt in Hlk. rewrite elem_of_dom. split.
  - intros [events Hev]. rewrite Hev in Hlk. simpl in Hlk.
    specialize (Hne t events Hev). destruct events as [|e events]; [done|].
    exists e. assert (e ∈ e :: events) as Hin by (by left).
    rewrite Hlk in Hin. apply list_elem_of_filter in Hin. tauto.
  - intros (e & He & Ht).
    destruct (read_tracks 0 (tracks mid) ∅ !! t) as [events|]; [eauto|].
    simpl in Hlk. assert (e ∈ @nil Event) as []%elem_of_nil.
    rewrite Hlk. by apply list_elem_of_filter.
Qed.

Lemma read_midi_events_groups_in_order_witness :
  ∃ events_by_tick : EventTable,
    read_midi_events doubled_tom_mid = Ok events_by_tick ∧
    events_by_tick !!! 0
    = [mkEvent 0 0 (NoteOn 9 110 100 0); mkEvent 0 1 (NoteOn 9 110 90 0)].
Proof.
  eexists. split; [reflexivity|].
  by rewrite (proj1 (read_midi_events_groups_in_order doubled_tom_mid _ eq_refl) 0).
Defined.

Lemma abs_time_of_nonneg trk i :
  (∀ m, m ∈ trk → 0 ≤ msg_time m) → 0 ≤ abs_time_of trk i.
Proof.
  unfold abs_time_of. generalize (S i) as n.
  induction trk as [|m trk IH]; intros n Hpos; [by destruct n|].
  destruct n as [|n]; [done|]. simpl.
  assert (0 ≤ msg_time m) by (apply Hpos; by left).
  assert (0 ≤ foldr Z.add 0 (msg_time <$> take n trk)).
  { apply IH. intros m' Hm'. apply Hpos. by right. }
  change (0 ≤ msg_time m + foldr Z.add 0 (msg_time <$> take n trk)). lia.
Qed.

Lemma read_midi_events_nonneg mid (events_by_tick : EventTable) :
  nonneg_deltas mid → read_midi_events mid = Ok events_by_tick →
  nonneg_ticks events_by_tick.
Proof.
  intros Hpos Hread [t j] e Hat.
  assert (stored events_by_tick t e) as Hst by (apply stored_event_at; eauto).
  apply (read_midi_events_stored _ _ _ _ Hread) in Hst
    as [(k & i & trk & m & Hk & _ & _ & ->) _].
  simpl. apply abs_time_of_nonneg. intros m' Hm'.
  apply (Hpos trk); [by eapply list_elem_of_lookup_2 | done].
Qed.

(** ** The outcome of [main] *)

Lemma main_unfold mid (events tbl : EventTable) :
  read_midi_events mid = Ok events → transform events = Ok tbl →
  main mid = write_midi tbl (-1).
Proof.
  intros Hread Htr. unfold main. rewrite Hread. cbn [mbind result_bind].
  rewrite Htr. reflexivity.
Qed.

Lemma write_midi_Err_inv (events_by_tick : EventTable) in_track err :
  write_midi events_by_tick in_track = Err err → err = IndexError.
Proof.
  unfold write_midi, index.
  destruct (synth_tracks events_by_tick in_track) as [|t0 [|t1 rest]]; simpl;
    congruence.
Qed.

(** X24. [main] has two ways to fail and no other: the resolution error
    of ingestion, and the IndexError of the track naming; the ValueError of
    [min()] cannot occur, the match sets of the rule script being
    non-empty.  It returns a container exactly when the resolution is 96
    and the transformed table has events on two tracks or more. *)
Theorem main_outcome mid :
  (∀ err, main mid = Err err →
          err = ValueError_tpb (ticks_per_beat mid) 96 ∨ err = IndexError) ∧
  ((∃ out, main mid = Ok out) ↔
   ticks_per_beat mid = 96 ∧
   ∃ events tbl : EventTable,
     read_midi_events mid = Ok events ∧ transform events = Ok tbl ∧
     (2 ≤ length (emitted_ids tbl (-1)))%nat).
Proof.
  destruct (decide (ticks_per_beat mid = EXPECTED_TPB)) as [Htpb|Htpb].
  - assert (read_midi_events mid = Ok (read_tracks 0 (tracks mid) ∅)) as Hread.
    { unfold read_midi_events. rewrite bool_decide_eq_false_2; [done | by intros ?]. }
    destruct (transform_total (read_tracks 0 (tracks mid) ∅)) as [tbl Htr].
    rewrite (main_unfold mid _ tbl Hread Htr). split.
    + intros err ->%write_midi_Err_inv. by right.
    + split.
      * intros [out (t0 & t1 & rest & Hb & _)%write_midi_Ok_inv].
        split; [done|]. exists (read_tracks 0 (tracks mid) ∅), tbl.
        split; [done|]. split; [done|].
        rewrite <- length_synth_tracks, Hb. simpl. lia.
      * intros (_ & events & tbl0 & Hread0 & Htr0 & Hlen).
        rewrite Hread in Hread0. injection Hread0 as <-.
        rewrite Htr in Htr0. injection Htr0 as <-.
        rewrite <- length_synth_tracks in Hlen.
        destruct (synth_tracks tbl (-1)) as [|t0 [|t1 rest]] eqn:Hb;
          simpl in Hlen; [lia..|].
        eexists. apply write_midi_Ok_inv. by exists t0, t1, rest.
  - assert (main mid = Err (ValueError_tpb (ticks_per_beat mid) 96)) as Hmain.
    { unfold main, read_midi_events. by rewrite bool_decide_eq_true_2. }
    rewrite Hmain. split.
    + intros err [= <-]. by left.
    + split; [by intros [out ?] | by intros [? _]].
Qed.

Lemma main_outcome_witness : ∃ out, main groove_mid = Ok out.
Proof.
  apply (main_outcome groove_mid). split; [reflexivity|].
  exists (read_tracks 0 (tracks groove_mid) ∅),
         (match transform (read_tracks 0 (tracks groove_mid) ∅) with
          | Ok t => t
          | Err _ => ∅
          end).
  split; [reflexivity|]. split; [vm_compute; reflexivity|]. vm_compute. lia.
Defined.

(** ** Delta times from end to end *)

Lemma pass_derives_nonneg (tbl tbl' : EventTable) :
  pass_derives tbl tbl' → ticks_agree tbl → nonneg_ticks tbl → nonneg_ticks tbl'.
Proof.
  intros Hd Hag Hpos [t j] e' Hat.
  destruct (Hd t e') as (e & Hst & _ & Htk); [apply stored_event_at; eauto|].
  pose proof (ticks_agree_stored _ _ _ Hag Hst) as Hkey.
  apply stored_event_at in Hst as [j0 Hj0]. specialize (Hpos _ _ Hj0).
  destruct Htk as [-> | ->]; lia.
Qed.

Lemma elem_of_rename_time name trk trk' m :
  rename_first name trk = Some trk' → m ∈ trk' →
  ∃ m0, m0 ∈ trk ∧ msg_time m = msg_time m0.
Proof.
  revert trk'. induction trk as [|m1 trk IH]; intros trk' Hren Hm; [done|].
  assert (Hother : ∀ rest', rename_first name trk = Some rest' → m ∈ m1 :: rest' →
                            ∃ m0, m0 ∈ m1 :: trk ∧ msg_time m = msg_time m0).
  { intros rest' Hr [->|Hin]%elem_of_cons.
    - exists m1. split; [by left | done].
    - destruct (IH _ Hr Hin) as (m0 & Hm0 & Ht). exists m0. split; [by right | done]. }
  destruct m1; simpl in Hren;
    try (destruct (rename_first name trk) as [rest'|] eqn:Hr; [|done];
         simpl in Hren; injection Hren as <-; exact (Hother _ eq_refl Hm)).
  injection Hren as <-. apply elem_of_cons in Hm as [->|Hin].
  - eexists. split; [by left | done].
  - exists m. split; [by right | done].
Qed.

Lemma elem_of_set_name_time name trk m :
  m ∈ set_name name trk → msg_time m = 0 ∨ ∃ m0, m0 ∈ trk ∧ msg_time m = msg_time m0.
Proof.
  unfold set_name. destruct (rename_first name trk) as [trk'|] eqn:Hren.
  - intros Hm. right. by eapply elem_of_rename_time.
  - intros [->|Hm]%elem_of_cons; [by left|]. right. by exists m.
Qed.

Lemma synth_track_nonneg events :
  (∀ e, e ∈ events → 0 ≤ tick e) → ∀ m, m ∈ synth_track events → 0 ≤ msg_time m.
Proof.
  intros Hpos. apply delta_encode_nonneg; [apply sort_by_fst_sorted|].
  intros [t m] (e & He & Hcase)%elem_of_sort_by%elem_of_flat_events_of.
  specialize (Hpos e He). unfold DEFAULT_DURATION in Hcase. simpl.
  destruct Hcase as [[-> _]|(_ & -> & _)]; lia.
Qed.

Lemma write_midi_nonneg (events_by_tick : EventTable) in_track out :
  nonneg_ticks events_by_tick → write_midi events_by_tick in_track = Ok out →
  nonneg_deltas out.
Proof.
  intros Hpos (t0 & t1 & rest & Hb & ->)%write_midi_Ok_inv trk' m Htrk' Hm. simpl in Htrk'.
  assert (Hbuilt : ∀ trk m0, trk ∈ t0 :: t1 :: rest → m0 ∈ trk → 0 ≤ msg_time m0).
  { intros trk m0 [k Hk]%list_elem_of_lookup. rewrite <- Hb in Hk.
    apply synth_tracks_lookup in Hk as (id & _ & ->).
    apply synth_track_nonneg.
    intros e [_ [t [j Hj]%stored_event_at]%elem_of_events_in_tick_order]%list_elem_of_filter.
    by apply (Hpos _ _ Hj). }
  assert (Hnamed : ∀ name trk, trk ∈ t0 :: t1 :: rest → m ∈ set_name name trk →
                               0 ≤ msg_time m).
  { intros name trk Htrk [->|(m0 & Hm0 & ->)]%elem_of_set_name_time; [done|].
    by apply (Hbuilt trk). }
  apply elem_of_cons in Htrk' as [->|Htrk'].
  { apply (Hnamed "RH"%string t0); [by left | done]. }
  apply elem_of_cons in Htrk' as [->|Htrk'].
  { apply (Hnamed "LH"%string t1); [by right; left | done]. }
  apply (Hbuilt trk'); [by do 2 right | done].
Qed.

Lemma main_Ok_inv mid out :
  main mid = Ok out →
  ∃ events tbl : EventTable,
    read_midi_events mid = Ok events ∧ transform events = Ok tbl ∧
    write_midi tbl (-1) = Ok out.
Proof.
  intros Hmain. destruct (read_midi_events mid) as [events|err] eqn:Hread.
  - destruct (transform_total events) as [tbl Htr]. exists events, tbl.
    rewrite (main_unfold mid events tbl Hread Htr) in Hmain. auto.
  - unfold main in Hmain. rewrite Hread in Hmain. discriminate Hmain.
Qed.

(** X25. [main] never writes a negative delta time: when every delta
    time of the input container is non-negative and a container is
    returned, every delta time in every output track is non-negative. *)
Theorem main_deltas_nonneg mid out :
  nonneg_deltas mid → main mid = Ok out → nonneg_deltas out.
Proof.
  intros Hpos Hmain.
  apply main_Ok_inv in Hmain as (events & tbl & Hread & Htr & Hw).
  apply (write_midi_nonneg tbl (-1)); [|exact Hw].
  apply (pass_derives_nonneg events).
  - by apply transform_derives.
  - by eapply read_midi_events_ticks_agree.
  - by eapply read_midi_events_nonneg.
Qed.

Lemma nonneg_deltas_Forall mid :
  Forall (Forall (λ m, 0 ≤ msg_time m)) (tracks mid) → nonneg_deltas mid.
Proof.
  intros Hall trk m Htrk Hm. rewrite Forall_forall in Hall.
  specialize (Hall trk Htrk). rewrite Forall_forall in Hall. by apply Hall.
Qed.

Lemma main_deltas_nonneg_witness :
  ∃ out, main groove_mid = Ok out ∧ nonneg_deltas out.
Proof.
  exists (match main groove_mid with
          | Ok out => out
          | Err _ => {| ticks_per_beat := 0; tracks := [] |}
          end).
  assert (main groove_mid
          = Ok (match main groove_mid with
                | Ok out => out
                | Err _ => {| ticks_per_beat := 0; tracks := [] |}
                end)) as Hmain by (vm_compute; reflexivity).
  split; [exact Hmain|].
  apply (main_deltas_nonneg groove_mid); [|exact Hmain].
  apply nonneg_deltas_Forall. apply (bool_decide_unpack _). vm_compute. exact I.
Defined.

(** ** Events stay under their tick *)

(** X26. Every event is filed under its own tick, from ingestion to
    synthesis: the table [read_midi_events] returns has the tick of each
    event equal to its key, and every rewrite pass keeps it so (the
    duplicate [detect_flam] inserts takes the key as its tick). *)
Theorem ticks_agree_kept :
  (∀ mid (events_by_tick : EventTable),
     read_midi_events mid = Ok events_by_tick → ticks_agree events_by_tick) ∧
  (∀ events_by_tick : EventTable, ticks_agree events_by_tick →
     (∀ match_notes replace_with tbl',
        replace_composite_notes events_by_tick match_notes replace_with = Ok tbl' →
        ticks_agree tbl') ∧
     (∀ from_note to_note,
        ticks_agree (replace_single_note events_by_tick from_note to_note)) ∧
     (∀ from_note from_vel to_note,
        ticks_agree (replace_note_if_velocity events_by_tick from_note from_vel to_note)) ∧
     (∀ from_vel to_vel,
        ticks_agree (replace_velocity_if_velocity events_by_tick from_vel to_vel)) ∧
     (∀ notes to_track,
        ticks_agree (replace_note_track events_by_tick notes to_track)) ∧
     (∀ notes left_track right_track,
        ticks_agree (assign_hands_for_note events_by_tick notes left_track right_track)) ∧
     (∀ from_note from_vel to_note left_track right_track,
        ticks_agree (detect_flam events_by_tick from_note from_vel to_note
                                 left_track right_track)) ∧
     (∀ from_track to_track,
        ticks_agree (replace_track events_by_tick from_track to_track))).
Proof.
  split; [apply read_midi_events_ticks_agree|].
  intros tbl Hag. split_and!; intros.
  - eapply pass_derives_ticks_agree; [by eapply replace_composite_notes_derives|done].
  - eapply pass_derives_ticks_agree; [apply replace_single_note_derives|done].
  - eapply pass_derives_ticks_agree; [apply replace_note_if_velocity_derives|done].
  - eapply pass_derives_ticks_agree; [apply replace_velocity_if_velocity_derives|done].
  - eapply pass_derives_ticks_agree; [apply replace_note_track_derives|done].
  - eapply pass_derives_ticks_agree; [apply assign_hands_for_note_derives|done].
  - eapply pass_derives_ticks_agree; [apply detect_flam_derives|done].
  - eapply pass_derives_ticks_agree; [apply replace_track_derives|done].
Qed.

Lemma ticks_agree_kept_witness :
  ∃ events_by_tick : EventTable,
    read_midi_events mid_96 = Ok events_by_tick ∧
    ticks_agree (detect_flam events_by_tick 38 127 38 5 6).
Proof.
  destruct ticks_agree_kept as [Hread Hpass].
  eexists. split; [reflexivity|].
  apply Hpass. by apply (Hread mid_96).
Defined.

(** ** Two hand assignments in a row *)

(** X27. A second hand assignment decides on its own: for a hit of its
    note set, the ticks it looks at are those of the table before the first
    assignment, the first assignment having moved no event.  A strong-beat
    hit followed by a sixteenth ends on [right_track] and a weak-beat hit
    on [left_track] whatever the first assignment did; only a strong-beat
    hit without such a successor keeps the track the first assignment left
    it on. *)
Theorem assign_hands_for_note_twice (events_by_tick : EventTable) notes1 notes2
    left_track right_track i l :
  note_hits events_by_tick notes2 !! i = Some l →
  ∃ e1 e2,
    event_at (assign_hands_for_note events_by_tick notes1 left_track right_track) l
    = Some e1 ∧
    event_at (assign_hands_for_note
                (assign_hands_for_note events_by_tick notes1 left_track right_track)
                notes2 left_track right_track) l = Some e2 ∧
    msg e2 = msg e1 ∧ tick e2 = tick e1 ∧
    (strong_beat l.1 → next_hit_is_sixteenth (note_hits events_by_tick notes2) i l.1 →
       track e2 = right_track) ∧
    (strong_beat l.1 → ¬ next_hit_is_sixteenth (note_hits events_by_tick notes2) i l.1 →
       track e2 = track e1) ∧
    (¬ strong_beat l.1 → track e2 = left_track).
Proof.
  intros Hi.
  set (tbl1 := assign_hands_for_note events_by_tick notes1 left_track right_track).
  assert (note_hits tbl1 notes2 = note_hits events_by_tick notes2) as Hhits
    by apply note_hits_assign_loop.
  destruct (proj1 (elem_of_note_hits tbl1 notes2 l)) as (e1 & Hat1 & _).
  { rewrite Hhits. by eapply list_elem_of_lookup_2. }
  exists e1; eexists. split; [done|]. split.
  { unfold assign_hands_for_note at 1. rewrite Hhits.
    rewrite (assign_loop_hit _ _ _ _ i) by (done || apply NoDup_note_hits).
    rewrite Hat1. reflexivity. }
  simpl. repeat split.
  - apply hand_of_sixteenth.
  - apply hand_of_strong_alone.
  - apply hand_of_weak.
Qed.

Lemma assign_hands_for_note_twice_witness :
  ∃ e2, event_at (assign_hands_for_note (assign_hands_for_note two_hits_table [38; 42] 5 6)
                    [38; 48; 45; 43] 5 6) (24, 0%nat) = Some e2 ∧
        track e2 = 5.
Proof.
  destruct (assign_hands_for_note_twice two_hits_table [38; 42] [38; 48; 45; 43] 5 6
              1 (24, 0%nat) eq_refl) as (e1 & e2 & _ & Hat & _ & _ & _ & _ & Hweak).
  exists e2. split; [done|]. apply Hweak.
  unfold strong_beat. simpl. intros [?|?]; done.
Defined.

(** ** The ghost velocity *)

Lemma pointwise_no_velocity (f : Event → Event) v (events_by_tick : EventTable) :
  (∀ e, (msg_type (msg e) = note_on → msg_velocity (msg e) ≠ v) →
        msg_type (msg (f e)) = note_on → msg_velocity (msg (f e)) ≠ v) →
  no_velocity v events_by_tick →
  no_velocity v ((λ events : list Event, f <$> events) <$> events_by_tick).
Proof.
  intros Hf Hno l e'. rewrite event_at_pointwise.
  destruct (event_at events_by_tick l) as [e|] eqn:Hat; [|done]. simpl. intros [= <-].
  apply Hf. by apply (Hno l).
Qed.

Lemma replace_velocity_if_velocity_clears (events_by_tick : EventTable) from_vel to_vel :
  from_vel ≠ to_vel →
  no_velocity from_vel (replace_velocity_if_velocity events_by_tick from_vel to_vel).
Proof.
  intros Hne l e'. rewrite replace_velocity_if_velocity_eq, event_at_pointwise.
  destruct (event_at events_by_tick l) as [e|]; [|done]. simpl. intros [= <-].
  destruct (decide (msg_type (msg e) = note_on ∧ msg_velocity (msg e) = from_vel))
    as [[Hty Hv]|Hno].
  - rewrite velocity_event_hit by done. simpl. congruence.
  - rewrite velocity_event_miss by done. tauto.
Qed.

Lemma replace_track_no_velocity (events_by_tick : EventTable) from_track to_track v :
  no_velocity v events_by_tick →
  no_velocity v (replace_track events_by_tick from_track to_track).
Proof.
  rewrite replace_track_eq. apply pointwise_no_velocity. intros e He.
  unfold track_event. by case_bool_decide.
Qed.

Lemma replace_note_track_no_velocity (events_by_tick : EventTable) notes to_track v :
  no_velocity v events_by_tick →
  no_velocity v (replace_note_track events_by_tick notes to_track).
Proof.
  rewrite replace_note_track_eq. apply pointwise_no_velocity. intros e He.
  unfold note_track_event. by destruct (is_hit notes (msg e)).
Qed.

Lemma assign_hands_for_note_no_velocity (events_by_tick : EventTable) notes
    left_track right_track v :
  no_velocity v events_by_tick →
  no_velocity v (assign_hands_for_note events_by_tick notes left_track right_track).
Proof.
  intros Hno l e' (e & Hat & Hm & _)%assign_loop_event_at. rewrite Hm. by apply (Hno l).
Qed.

Lemma detect_flam_no_velocity (events_by_tick : EventTable)
    from_note from_vel to_note left_track right_track v :
  v ≠ 100 → no_velocity v events_by_tick →
  no_velocity v (detect_flam events_by_tick from_note from_vel to_note
                             left_track right_track).
Proof.
  intros Hne Hno l e' (events' & Hev' & He')%event_at_Some.
  rewrite lookup_detect_flam in Hev'.
  destruct (events_by_tick !! l.1) as [events|] eqn:Ht; [|done].
  simpl in Hev'. injection Hev' as <-. rewrite flam_tick_eq in He'.
  apply list_elem_of_lookup_2, elem_of_app in He' as [He'|He'];
    apply list_elem_of_fmap in He' as (e & -> & He).
  - destruct (flam_match from_note from_vel (msg e)) eqn:Hm; [simpl; congruence|].
    apply list_elem_of_lookup in He as [j Hj]. apply (Hno (l.1, j)).
    apply event_at_Some. by exists events.
  - simpl. congruence.
Qed.

(** X28. After the rule script of [main] no note-on has velocity 1:
    [replace_velocity_if_velocity] raises the ghost marker to 20 and the
    passes after it either keep velocities or write 100. *)
Theorem transform_clears_ghost_velocity (events tbl' : EventTable) :
  transform events = Ok tbl' → no_velocity 1 tbl'.
Proof.
  unfold transform. intros Hrun.
  apply bind_Ok_inv in Hrun as (e1 & _ & Hrun).
  apply bind_Ok_inv in Hrun as (e2 & _ & Hrun).
  apply bind_Ok_inv in Hrun as (e3 & _ & Hrun).
  apply Ok_inj in Hrun. cbv zeta in Hrun. subst tbl'.
  do 3 apply replace_track_no_velocity.
  apply detect_flam_no_velocity; [lia|].
  do 2 apply assign_hands_for_note_no_velocity.
  apply replace_note_track_no_velocity.
  apply replace_velocity_if_velocity_clears. lia.
Qed.

Lemma transform_clears_ghost_velocity_witness :
  ∃ tbl', transform velocity_table = Ok tbl' ∧ no_velocity 1 tbl'.
Proof.
  destruct (transform_total velocity_table) as [tbl' Hrun].
  exists tbl'. split; [done|]. by apply (transform_clears_ghost_velocity velocity_table).
Defined.

Lemma assign_hands_for_note_keeps_witness :
  event_at (assign_hands_for_note kick_table [38; 42] 5 6) (0, 0%nat)
  = Some (mkEvent 0 0 (NoteOn 9 96 100 0)).
Proof.
  destruct (assign_hands_for_note_keeps kick_table [38; 42] 5 6) as [_ Hkeep].
  specialize (Hkeep (0, 0%nat)).
  change (event_at kick_table (0, 0%nat)) with (Some (mkEvent 0 0 (NoteOn 9 96 100 0)))
    in Hkeep.
  destruct Hkeep as (e' & -> & _ & _ & _ & Hsame). f_equal. by apply Hsame.
Defined.
